(** * Product variant generation (generate_variants.ts)

    A shallow embedding of [generateCombinations] and [main] of
    generate_variants.ts, and the properties of the variant expansion.

    Modelling conventions.
    - A JavaScript object is the finite map of its own properties
      ([gmap string jsval]).  A property that holds [undefined] is a key
      bound to [JUndefined]; a missing property is an unbound key.  The
      order of the keys of an object is not modelled.  What an object
      inherits from [Object.prototype] shows at two places: an
      assignment to the key [__proto__] goes to the accessor of
      [Object.prototype] as long as the object inherits it ([js_set]),
      and reading a missing [constructor] or [__proto__] of a value
      gives the inherited one ([ov_get]).  The values of the input are
      plain objects, as [JSON.parse] creates them.
    - Numbers are integers ([Z]); the only operation the code applies to
      them is the comparison [>].
    - Strings are byte strings, and [toLowerCase] maps the ASCII letters
      A-Z to a-z.  On a string of ASCII characters ([ascii_only]) this is
      what [String.prototype.toLowerCase] does; the results that compare
      lower-cased names with each other are stated for ASCII names.
    - [randomUUID] is a supply of identifiers: the [k]-th call of a run
      returns [randomUUID rt k], and the number of calls made so far is
      threaded through the computation. *)

From Stdlib Require Import ZArith String Ascii List Lia.
From stdpp Require Import base tactics option list gmap strings pretty sorting.

Local Open Scope string_scope.
Local Open Scope list_scope.
Local Open Scope Z_scope.
Local Open Scope nat_scope.

Set Warnings "-register-all".

(** ** JavaScript values *)

(** [JInherited k] is the value of the property [k] of
    [Object.prototype]: the function [Object] for [constructor], and
    [Object.prototype] itself for [__proto__]. *)
Inductive jsval : Type :=
| JUndefined
| JNull
| JBool (b : bool)
| JNum (n : Z)
| JStr (s : string)
| JArr (items : list jsval)
| JObj (fields : list (string * jsval))
| JInherited (property : string).

(** [o[k]]: reading a property that is missing gives [undefined]. *)
Definition js_get (o : gmap string jsval) (k : string) : jsval :=
  default JUndefined (o !! k).

(** An object that the code assigns to: its own properties, and whether
    it still inherits the accessor [__proto__] of [Object.prototype]. *)
Record object : Type := {
  own : gmap string jsval;
  proto_accessor : bool;
}.

(** The object that an object literal with the properties [fields]
    creates: its prototype is [Object.prototype]. *)
Definition literal (fields : gmap string jsval) : object :=
  {| own := fields; proto_accessor := true |}.

(** The accessor [__proto__] called with [x] on an object that inherits
    it: an object or [null] becomes the prototype, any other value is
    ignored.  Afterwards the object inherits the accessor unless its
    prototype is [null] or has a property [__proto__] of its own, as an
    object parsed from a text with the key [__proto__] has. *)
Definition after_accessor (x : jsval) : bool :=
  match x with
  | JNull => false
  | JObj fields => bool_decide ("__proto__" ∉ fields.*1)
  | _ => true
  end.

(** [o[k] = x]: the property [k] of [o] is created or updated, except
    that the key [__proto__], when [o] has no such property, goes to the
    inherited accessor when there is one, and then no property is
    created. *)
Definition js_set (o : object) (k : string) (x : jsval) : object :=
  if bool_decide (k = "__proto__") && bool_decide (own o !! k = None)
     && proto_accessor o
  then {| own := own o; proto_accessor := after_accessor x |}
  else {| own := <[k := x]> (own o); proto_accessor := proto_accessor o |}.

(** [a ?? b] *)
Definition nullish (v : jsval) : bool :=
  match v with
  | JUndefined | JNull => true
  | _ => false
  end.

Definition coalesce (a b : jsval) : jsval := if nullish a then b else a.

(** [v === undefined] *)
Definition is_undefined (v : jsval) : bool :=
  match v with
  | JUndefined => true
  | _ => false
  end.

(** [String.prototype.toLowerCase], on ASCII. *)
Definition lower_ascii (c : ascii) : ascii :=
  let n := nat_of_ascii c in
  if (65 <=? n)%nat && (n <=? 90)%nat then ascii_of_nat (n + 32) else c.

Fixpoint toLowerCase (s : string) : string :=
  match s with
  | EmptyString => EmptyString
  | String c rest => String (lower_ascii c) (toLowerCase rest)
  end.

(** The strings on which [toLowerCase] above is the lower-casing of
    JavaScript: every character is an ASCII character. *)
Fixpoint ascii_only (s : string) : bool :=
  match s with
  | EmptyString => true
  | String c rest => (nat_of_ascii c <? 128)%nat && ascii_only rest
  end.

(** ** The data model: the exported interfaces *)

(** [interface OptionValue]: [name], the optional [price] and
    [description], and the index signature.  [ov_extra] holds the
    properties admitted by the index signature; an entry of [ov_extra]
    under one of the three declared names is not a property of the
    object (see [ov_keys]). *)
Record OptionValue : Type := {
  ov_name : string;
  ov_price : option Z;
  ov_description : option string;
  ov_extra : gmap string jsval;
}.

(** An element of [ProductOption.values]: [string | OptionValue]. *)
Inductive Value : Type :=
| VString (label : string)
| VObject (o : OptionValue).

Record ProductOption : Type := {
  po_name : string;
  po_values : list Value;
}.

Record Product : Type := {
  p_id : Z;
  p_name : string;
  p_options : list ProductOption;
  p_description : string;
}.

Definition declared_key (k : string) : bool :=
  bool_decide (k = "name") || bool_decide (k = "price")
  || bool_decide (k = "description").

Definition opt_key {A} (k : string) (field : option A) : list string :=
  match field with
  | Some _ => [k]
  | None => []
  end.

(** The names of the properties that come under the index signature. *)
Definition extra_keys (value : OptionValue) : list string :=
  filter (fun k => declared_key k = false) (map fst (map_to_list (ov_extra value))).

(** [Object.keys(value)] *)
Definition ov_keys (value : OptionValue) : list string :=
  "name" :: opt_key "price" (ov_price value)
  ++ opt_key "description" (ov_description value)
  ++ extra_keys value.

Definition price_val (price : option Z) : jsval :=
  match price with
  | Some n => JNum n
  | None => JUndefined
  end.

(** What an object that lacks the property [k] inherits under that
    name: [Object.prototype] has two properties whose names are in lower
    case, [constructor] and [__proto__]. *)
Definition inherited (k : string) : jsval :=
  if bool_decide (k = "constructor") || bool_decide (k = "__proto__")
  then JInherited k
  else JUndefined.

(** [value[k]] *)
Definition ov_get (value : OptionValue) (k : string) : jsval :=
  if bool_decide (k = "name") then JStr (ov_name value)
  else if bool_decide (k = "price") then price_val (ov_price value)
  else if bool_decide (k = "description") then
    match ov_description value with
    | Some d => JStr d
    | None => JUndefined
    end
  else default (inherited k) (ov_extra value !! k).

(** ** The runtime *)

(** What the run takes from its environment: the identifier supply, and
    the outcome of [n > v] when [v] is a string, an array or an object,
    which JavaScript decides by converting [v] to a number.  That
    conversion is not modelled; every result below holds whatever it
    gives. *)
Record Runtime : Type := {
  randomUUID : nat -> string;
  gt_coerced : Z -> jsval -> bool;
}.

(** [value['price'] > variant.price], the left operand being a number
    or [undefined]. *)
Definition js_gt (rt : Runtime) (price : option Z) (current : jsval) : bool :=
  match price with
  | None => false
  | Some n =>
      match current with
      | JUndefined => false
      | JNull => (0 <? n)%Z
      | JBool b => ((if b then 1 else 0) <? n)%Z
      | JNum m => (m <? n)%Z
      | other => gt_coerced rt n other
      end
  end.

(** A computation that draws identifiers: the state is the number of
    calls of [randomUUID] made so far. *)
Definition Gen (A : Type) : Type := nat -> A * nat.

Definition gen_ret {A} (x : A) : Gen A := fun n => (x, n).

Definition gen_bind {A B} (m : Gen A) (f : A -> Gen B) : Gen B :=
  fun n => let '(x, n') := m n in f x n'.

Notation "'let*' x := m 'in' k" := (gen_bind m (fun x => k))
  (at level 10, x name, m at level 100, k at level 200).

Definition fresh (rt : Runtime) : Gen string :=
  fun n => (randomUUID rt n, S n).

(** [xs.map(f)], the callback drawing identifiers. *)
Fixpoint mapG {A B} (f : A -> Gen B) (xs : list A) : Gen (list B) :=
  match xs with
  | [] => gen_ret []
  | x :: rest =>
      let* y := f x in
      let* ys := mapG f rest in
      gen_ret (y :: ys)
  end.

(** [xs.flatMap(f)] *)
Definition flatMapG {A B} (f : A -> Gen (list B)) (xs : list A) : Gen (list B) :=
  let* yss := mapG f xs in
  gen_ret (concat yss).

(** [xs.reduce(f, init)] *)
Fixpoint reduceG {A B} (f : B -> A -> Gen B) (xs : list A) (acc : B) : Gen B :=
  match xs with
  | [] => gen_ret acc
  | x :: rest =>
      let* acc' := f acc x in
      reduceG f rest acc'
  end.

(** ** generateCombinations *)

Section GenerateCombinations.

Variable rt : Runtime.
Variable product : Product.

(** The object literal of lines 59-66: the spread of [combination],
    then the five base properties in the order written. *)
Definition base_fields (combination : gmap string jsval) (id : string)
  : gmap string jsval :=
  <["price" := js_get combination "price"]>
  (<["description" :=
       coalesce (js_get combination "description") (JStr (p_description product))]>
  (<["parentProductName" := JStr (p_name product)]>
  (<["parentProductId" := JNum (p_id product)]>
  (<["id" := JStr id]> combination)))).

(** Lines 74-76; [variant.price] is a property of [variant] itself,
    written by the object literal. *)
Definition update_price (value : OptionValue) (variant : object) : object :=
  if is_undefined (js_get (own variant) "price")
     || js_gt rt (ov_price value) (js_get (own variant) "price")
  then js_set variant "price" (price_val (ov_price value))
  else variant.

(** The callback of [Object.keys(value).forEach], lines 78-86. *)
Definition copy_key (value : OptionValue) (variant : object) (key : string)
  : object :=
  let sanitisedKey := toLowerCase key in
  if bool_decide (sanitisedKey = "name") || bool_decide (sanitisedKey = "price")
  then variant
  else js_set variant sanitisedKey (ov_get value sanitisedKey).

(** The callback of [option.values.map], lines 55-90, given the
    identifier drawn for the variant. *)
Definition make_variant (option : ProductOption)
    (combination : gmap string jsval) (value : Value) (id : string)
  : gmap string jsval :=
  let optionName := toLowerCase (po_name option) in
  let variant := literal (base_fields combination id) in
  match value with
  | VString label => own (js_set variant optionName (JStr label))
  | VObject o =>
      let variant := js_set variant optionName (JStr (ov_name o)) in
      let variant := update_price o variant in
      own (foldl (copy_key o) variant (ov_keys o))
  end.

(** The reducer, lines 53-92. *)
Definition expand_option (combinations : list (gmap string jsval))
    (option : ProductOption) : Gen (list (gmap string jsval)) :=
  flatMapG (fun combination =>
    mapG (fun value =>
      let* id := fresh rt in
      gen_ret (make_variant option combination value id))
      (po_values option))
    combinations.

Definition generateCombinations : Gen (list (gmap string jsval)) :=
  reduceG expand_option (p_options product) [∅].

End GenerateCombinations.

(** ** Paths: the combination a variant is built from *)

(** One step of a path: an option and the value chosen for it. *)
Definition choice : Type := ProductOption * Value.

(** The nested iteration over the options, the first-declared option
    in the outermost loop and the last-declared one in the innermost. *)
Fixpoint lex_paths (options : list ProductOption) : list (list choice) :=
  match options with
  | [] => [[]]
  | o :: rest => po_values o ≫= (fun v => cons (o, v) <$> lex_paths rest)
  end.

(** The variant that the callback builds along a path, starting from the
    seed [{}] of the reduction, when every step is given [id]. *)
Definition variant_of_path (rt : Runtime) (product : Product)
    (path : list choice) (id : string) : gmap string jsval :=
  foldl (fun combination c => make_variant rt product c.1 combination c.2 id)
        ∅ path.

(** [variant] is the variant built along [path], its identifier drawn
    from the supply. *)
Definition built_along (rt : Runtime) (product : Product)
    (variant : gmap string jsval) (path : list choice) : Prop :=
  ∃ k, variant = variant_of_path rt product path (randomUUID rt k).

(** Two objects that differ at most under the key [k]. *)
Definition agree_off (k : string) (a b : gmap string jsval) : Prop :=
  ∀ j, j ≠ k → a !! j = b !! j.

(** The same of two objects under construction, which then treat an
    assignment to [__proto__] alike. *)
Definition agree_objects (k : string) (a b : object) : Prop :=
  agree_off k (own a) (own b)
  ∧ (k = "__proto__" ∨ proto_accessor a = proto_accessor b).

(** The value with another label, all else unchanged. *)
Definition relabel (v : Value) (label : string) : Value :=
  match v with
  | VString _ => VString label
  | VObject o =>
      VObject {| ov_name := label; ov_price := ov_price o;
                 ov_description := ov_description o; ov_extra := ov_extra o |}
  end.

(** *** What a path carries *)

Definition label_of (v : Value) : string :=
  match v with
  | VString label => label
  | VObject o => ov_name o
  end.

Definition price_of (v : Value) : option Z :=
  match v with
  | VString _ => None
  | VObject o => ov_price o
  end.

Definition description_of (v : Value) : option string :=
  match v with
  | VString _ => None
  | VObject o => ov_description o
  end.

(** The prices, and the descriptions, of the option-values on a path,
    in option order. *)
Definition carried_prices (path : list choice) : list Z :=
  omap (fun c => price_of c.2) path.

Definition carried_descriptions (path : list choice) : list string :=
  omap (fun c => description_of c.2) path.

(** The value has, under the index signature, a property whose
    lower-cased name is [j]. *)
Definition carries_extra (v : Value) (j : string) : bool :=
  match v with
  | VString _ => false
  | VObject o => bool_decide (j ∈ toLowerCase <$> extra_keys o)
  end.

(** No option on the path has the lower-cased name [j]. *)
Definition names_avoid (j : string) (path : list choice) : bool :=
  forallb (fun c => bool_decide (toLowerCase (po_name c.1) ≠ j)) path.

(** No option-value on the path carries an extra property whose
    lower-cased name is [j]. *)
Definition extras_avoid (j : string) (path : list choice) : bool :=
  forallb (fun c => negb (carries_extra c.2 j)) path.

(** The option names and the names of the extra properties on the path
    are ASCII strings. *)
Definition ascii_value (v : Value) : bool :=
  match v with
  | VString _ => true
  | VObject o => forallb ascii_only (extra_keys o)
  end.

Definition ascii_path (path : list choice) : bool :=
  forallb (fun c => ascii_only (po_name c.1) && ascii_value c.2) path.

(** The properties that the object literal of lines 59-66 writes. *)
Definition base_keys : list string :=
  ["id"; "parentProductId"; "parentProductName"; "description"; "price"].

(** The keys that the loop of lines 78-86 writes, for the key list [ks]. *)
Definition copies (ks : list string) (j : string) : bool :=
  bool_decide (j ≠ "name") && bool_decide (j ≠ "price")
  && bool_decide (j ∈ toLowerCase <$> ks).

(** The keys that the step for value [v] copies from the value. *)
Definition copied_by (v : Value) (j : string) : bool :=
  match v with
  | VString _ => false
  | VObject o => copies (ov_keys o) j
  end.

(** The greatest of the prices carried on a path. *)
Definition max_price (path : list choice) : option Z :=
  foldl (fun acc x => Some (match acc with None => x | Some m => Z.max m x end))
        None (carried_prices path).

(** The tuples of value indices for the given value counts, in the
    order of the same nested iteration. *)
Fixpoint lex_tuples (counts : list nat) : list (list nat) :=
  match counts with
  | [] => [[]]
  | c :: rest => seq 0 c ≫= (fun k => cons k <$> lex_tuples rest)
  end.

(** The lexicographic order on index tuples. *)
Inductive lex_lt : list nat -> list nat -> Prop :=
| lex_lt_head a b s t : a < b -> lex_lt (a :: s) (b :: t)
| lex_lt_tail a s t : lex_lt s t -> lex_lt (a :: s) (a :: t).

(** The choices that a tuple of value indices selects. *)
Fixpoint select (options : list ProductOption) (tuple : list nat)
  : option (list choice) :=
  match options, tuple with
  | [], [] => Some []
  | o :: rest, k :: ks =>
      match po_values o !! k, select rest ks with
      | Some v, Some path => Some ((o, v) :: path)
      | _, _ => None
      end
  | _, _ => None
  end.

Definition value_counts (options : list ProductOption) : list nat :=
  (fun o => length (po_values o)) <$> options.

(** ** main *)

(** What a run of the script does to the outside: the lines it logs and
    what it leaves in the files it opens for writing.
    [FileWritten path content]: the file at [path] now holds [content]. *)
Inductive event : Type :=
| ConsoleInfo (message : string)
| ConsoleError (message : string)
| FileWritten (path content : string).

(** How the top-level invocation ends: [main] returns, the process is
    ended by [process.exit], or an exception leaves [main]. *)
Inductive outcome : Type :=
| Returned
| Exited
| Uncaught (err : string).

Inductive result (A : Type) : Type :=
| Ok (x : A)
| Throw (err : string).

Arguments Ok {A} x.
Arguments Throw {A} err.

(** The value that [minimist] gives a flag: a string, or, for a text
    that reads as a number, a number; a boolean for a flag without a
    value ([--out], [--no-out]); an array for a flag given several times.
    Of a number the model keeps whether it is zero and the text that a
    template string gives for it, of an array that text. *)
Inductive argval : Type :=
| ArgString (s : string)
| ArgNumber (zero : bool) (text : string)
| ArgBoolean (b : bool)
| ArgArray (text : string).

(** [!v] *)
Definition js_not (v : argval) : bool :=
  match v with
  | ArgString s => bool_decide (s = "")
  | ArgNumber zero _ => zero
  | ArgBoolean b => negb b
  | ArgArray _ => false
  end.

(** [`${v}`] *)
Definition js_string (v : argval) : string :=
  match v with
  | ArgString s => s
  | ArgNumber _ text => text
  | ArgBoolean b => if b then "true" else "false"
  | ArgArray text => text
  end.

(** What [fs.writeFileSync(path, data)] does: it opens the file, which
    creates or empties it, writes the data and closes the file.  It
    throws before the file is touched when the file cannot be opened,
    and it can throw while it writes (a full disk, an input/output
    error); the file is then left with the part written so far. *)
Inductive written : Type :=
| WriteDone
| OpenFailed (err : string)
| WriteFailed (err : string) (partial : string).

(** The command line and the collaborators of [main].  [argv_help]
    tells whether [argv.help || argv.h] holds.  [readFileSync] is given
    the input path as it is, a number being a file descriptor.
    [JSON_parse] stands for [JSON.parse] followed by the reading of
    [.products] as a [Product[]]: it throws when the text is not JSON or
    has another shape. *)
Record World : Type := {
  argv_help : bool;
  argv_in : option argval;
  argv_out : option argval;
  argv_name : option argval;
  readFileSync : argval -> result string;
  JSON_parse : string -> result (list Product);
  JSON_stringify : list (gmap string jsval) -> string;
  writeFileSync : string -> string -> written;
}.

(** Lines 46-49. *)
Definition INPUT_FILE_PATH (w : World) : argval :=
  default (ArgString "./data/input-data.json") (argv_in w).

Definition OUTPUT_DIR (w : World) : argval :=
  default (ArgString "./results") (argv_out w).

Definition OUTPUT_FILE_NAME (w : World) : argval :=
  default (ArgString "generated-variants-with-base-data") (argv_name w).

Definition newline : string := String (ascii_of_nat 10) EmptyString.

Definition config_message : string :=
  "Incorrect configuration of required arguments, please try again. For more information on arguments, please run the script with --help".

Definition success_message (count : nat) (outputFile : string) : string :=
  String.append "Script ran successfully, "
    (String.append (pretty count)
       (String.append " variants generated at " outputFile)).

Definition failure_message (err : string) : string :=
  String.append
    "Failed to run. Please check input parameters and input file exists and matches the DB schema."
    (String.append newline
       (String.append newline (String.append " Error returned: " err))).

(** [`${OUTPUT_DIR}/${OUTPUT_FILE_NAME}.json`] *)
Definition outputFile (w : World) : string :=
  String.append (js_string (OUTPUT_DIR w))
    (String.append "/" (String.append (js_string (OUTPUT_FILE_NAME w)) ".json")).

Section Main.

Variable rt : Runtime.

(** The text of the manual page, lines 98-122. *)
Variable manual : string.

Definition printHelp : list event := [ConsoleInfo manual].

(** [inputJSON.products.flatMap((product) => generateCombinations(product))] *)
Definition productVariants (products : list Product) : list (gmap string jsval) :=
  (flatMapG (generateCombinations rt) products 0).1.

(** The body of the [try], lines 139-150. *)
Definition main_try (w : World) : list event * result unit :=
  match readFileSync w (INPUT_FILE_PATH w) with
  | Throw err => ([], Throw err)
  | Ok text =>
      match JSON_parse w text with
      | Throw err => ([], Throw err)
      | Ok products =>
          let content := JSON_stringify w (productVariants products) in
          match writeFileSync w (outputFile w) content with
          | OpenFailed err => ([], Throw err)
          | WriteFailed err partial => ([FileWritten (outputFile w) partial], Throw err)
          | WriteDone =>
              ([FileWritten (outputFile w) content;
                ConsoleInfo (success_message (length (productVariants products))
                                             (outputFile w))],
               Ok tt)
          end
      end
  end.

(** [try { ... } catch (err) { console.error(...) }] *)
Definition main_catch (body : list event * result unit) : list event * result unit :=
  match body.2 with
  | Ok _ => body
  | Throw err => (body.1 ++ [ConsoleError (failure_message err)], Ok tt)
  end.

Definition main (w : World) : list event * outcome :=
  if argv_help w then (printHelp, Exited)
  else
    let checked :=
      if js_not (INPUT_FILE_PATH w) || js_not (OUTPUT_DIR w)
      then [ConsoleError config_message]
      else [] in
    let body := main_catch (main_try w) in
    (checked ++ body.1,
     match body.2 with
     | Ok _ => Returned
     | Throw err => Uncaught err
     end).

End Main.

(** The input is read and parsed, and holds [products]. *)
Definition input_read (w : World) (products : list Product) : Prop :=
  ∃ text, readFileSync w (INPUT_FILE_PATH w) = Ok text
          ∧ JSON_parse w text = Ok products.

(** The outcome of the call of [fs.writeFileSync] for [products]. *)
Definition output_written (rt : Runtime) (w : World) (products : list Product)
  : written :=
  writeFileSync w (outputFile w) (JSON_stringify w (productVariants rt products)).

(** The ways a run fails: the input path or the output directory is
    falsy, the input cannot be read or parsed, the output cannot be
    written. *)
Inductive failure (rt : Runtime) (w : World) : Prop :=
| fail_config :
    js_not (INPUT_FILE_PATH w) = true ∨ js_not (OUTPUT_DIR w) = true → failure rt w
| fail_read err :
    readFileSync w (INPUT_FILE_PATH w) = Throw err → failure rt w
| fail_parse text err :
    readFileSync w (INPUT_FILE_PATH w) = Ok text →
    JSON_parse w text = Throw err → failure rt w
| fail_write products :
    input_read w products →
    output_written rt w products ≠ WriteDone →
    failure rt w.

(** The run stops before it writes: the input cannot be read or parsed,
    or the output file cannot be opened. *)
Definition stops_before_writing (rt : Runtime) (w : World) : Prop :=
  (∃ err, readFileSync w (INPUT_FILE_PATH w) = Throw err)
  ∨ (∃ text err, readFileSync w (INPUT_FILE_PATH w) = Ok text
                 ∧ JSON_parse w text = Throw err)
  ∨ (∃ products err, input_read w products
                     ∧ output_written rt w products = OpenFailed err).

(** The content is the serialisation of all the variants of the
    catalogue that the input file holds. *)
Definition complete_output (rt : Runtime) (w : World) (path content : string) : Prop :=
  ∃ products,
    input_read w products
    ∧ path = outputFile w
    ∧ content = JSON_stringify w (productVariants rt products).

(** The content is what a write that failed has left of the output
    file. *)
Definition cut_output (rt : Runtime) (w : World) (path content : string) : Prop :=
  ∃ products err,
    input_read w products
    ∧ path = outputFile w
    ∧ output_written rt w products = WriteFailed err content.

(** ** Products *)

(** The runtime of the examples: identifiers [uuid-0], [uuid-1], ... *)
Definition rt0 : Runtime :=
  {| randomUUID := fun k => String.append "uuid-" (pretty k);
     gt_coerced := fun _ _ => false |}.

Definition override (name : string) (price : option Z) (description : option string)
    (extra : list (string * jsval)) : Value :=
  VObject {| ov_name := name; ov_price := price;
             ov_description := description; ov_extra := list_to_map extra |}.

(** The product of the repository's tests. *)
Definition color : ProductOption :=
  {| po_name := "Color"; po_values := [VString "Red"; VString "Blue"] |}.

Definition finish : ProductOption :=
  {| po_name := "Finish";
     po_values := [override "360 wrap print" (Some 50%Z) (Some "Full wrap") [];
                   override "One-sided printing" (Some 45%Z) (Some "One side") []] |}.

Definition mockProduct : Product :=
  {| p_id := 1; p_name := "Test Product"; p_options := [color; finish];
     p_description := "Test product description" |}.

Definition material : ProductOption :=
  {| po_name := "Material";
     po_values := [VString "metal"; VString "plastic"; VString "wood"] |}.

Definition priced_material : ProductOption :=
  {| po_name := "Material";
     po_values := [override "metal" (Some 70%Z) None [];
                   override "plastic" (Some 65%Z) None []] |}.

Definition embossed_finish : ProductOption :=
  {| po_name := "Finish";
     po_values := [override "360 wrap print" (Some 50%Z) (Some "Full wrap")
                     [("embossed", JBool true)];
                   override "One-sided printing" (Some 45%Z) (Some "One side") []] |}.

Definition with_options (options : list ProductOption) : Product :=
  {| p_id := 1; p_name := "Test Product"; p_options := options;
     p_description := "Test product description" |}.

(** Two options that each carry a description. *)
Definition two_descriptions : Product :=
  with_options
    [{| po_name := "Finish";
        po_values := [override "Gloss" None (Some "first") []] |};
     {| po_name := "Material";
        po_values := [override "Metal" None (Some "second") []] |}].

(** An option named like the base property [price]. *)
Definition option_named_price : Product :=
  with_options [{| po_name := "Price"; po_values := [VString "cheap"] |}].

(** No option at all. *)
Definition no_options : Product := with_options [].

(** An extra property whose key has an upper-case letter. *)
Definition upper_case_key : Product :=
  with_options
    [{| po_name := "Finish";
        po_values := [override "Gloss" None None [("Embossed", JBool true)]] |}].

(** Two options whose names are equal after lower-casing. *)
Definition same_name : Product :=
  with_options
    [{| po_name := "Color"; po_values := [VString "Red"] |};
     {| po_name := "color"; po_values := [VString "Blue"] |}].

(** The same extra property on values of two options. *)
Definition shared_extra : Product :=
  with_options
    [{| po_name := "Finish";
        po_values := [override "Gloss" None None [("embossed", JBool true)];
                      VString "Matte"] |};
     {| po_name := "Coating";
        po_values := [override "Foil" None None [("embossed", JBool true)]] |}].

(** Two options of the same lower-cased name, the later one's value
    carrying an extra property under that name. *)
Definition same_name_and_key : Product :=
  with_options
    [{| po_name := "Color"; po_values := [VString "Red"] |};
     {| po_name := "color";
        po_values := [override "Blue" None None [("color", JStr "navy")]] |}].

(** An option named [__proto__]. *)
Definition option_named_proto : Product :=
  with_options [{| po_name := "__proto__"; po_values := [VString "x"] |}].

(** A value with the key [Constructor] and none in lower case. *)
Definition constructor_key : Product :=
  with_options
    [{| po_name := "Finish";
        po_values := [override "Gloss" None None [("Constructor", JNum 1)]] |}].

(** A value with the key [__proto__], bound to [null], in two
    spellings. *)
Definition proto_keys : Product :=
  with_options
    [{| po_name := "Finish";
        po_values := [override "Gloss" None None
                        [("__proto__", JNull); ("__PROTO__", JNum 1)]] |}].

(** The command line and the files of the test of a successful run: no
    flag, and an input file that holds an empty catalogue. *)
Definition empty_catalogue : World :=
  {| argv_help := false; argv_in := None; argv_out := None; argv_name := None;
     readFileSync := fun _ => Ok "{ products: [] }";
     JSON_parse := fun _ => Ok [];
     JSON_stringify := fun variants =>
       match variants with
       | [] => "[]"
       | _ => "[ ... ]"
       end;
     writeFileSync := fun _ _ => WriteDone |}.

(** An input file that cannot be read. *)
Definition missing_input : World :=
  {| argv_help := false; argv_in := None; argv_out := None; argv_name := None;
     readFileSync := fun _ => Throw "Error: ENOENT: no such file or directory";
     JSON_parse := fun _ => Ok [];
     JSON_stringify := fun _ => "[]";
     writeFileSync := fun _ _ => WriteDone |}.

(** An empty output directory, [--out=]. *)
Definition empty_out : World :=
  {| argv_help := false; argv_in := None; argv_out := Some (ArgString "");
     argv_name := None;
     readFileSync := fun _ => Ok "{ products: [] }";
     JSON_parse := fun _ => Ok [];
     JSON_stringify := fun _ => "[]";
     writeFileSync := fun _ _ => WriteDone |}.

(** [--out=0]: the output directory is the number 0. *)
Definition zero_out : World :=
  {| argv_help := false; argv_in := None; argv_out := Some (ArgNumber true "0");
     argv_name := None;
     readFileSync := fun _ => Ok "{ products: [] }";
     JSON_parse := fun _ => Ok [];
     JSON_stringify := fun _ => "[]";
     writeFileSync := fun _ _ => WriteDone |}.

(** A disk that is full once the first character of the output is
    written. *)
Definition disk_full : World :=
  {| argv_help := false; argv_in := None; argv_out := None; argv_name := None;
     readFileSync := fun _ => Ok "{ products: [] }";
     JSON_parse := fun _ => Ok [];
     JSON_stringify := fun _ => "[]";
     writeFileSync := fun _ content =>
       WriteFailed "Error: ENOSPC: no space left on device, write"
                   (String.substring 0 1 content) |}.

(** ** Further notions *)

(** The number of identifiers that the reduction draws for options with
    the given value counts, when it starts from [m] partial variants:
    one for every partial variant of every step. *)
Fixpoint uuid_calls (m : nat) (counts : list nat) : nat :=
  match counts with
  | [] => 0
  | c :: rest => m * c + uuid_calls (m * c) rest
  end.

(** The number of variants for the given value counts. *)
Definition variant_count (counts : list nat) : nat := foldr Nat.mul 1 counts.

(** The position in the supply of the identifier of the variant at
    position [i]: the identifiers of the last step follow those of all
    the earlier steps. *)
Definition id_position (options : list ProductOption) (n i : nat) : nat :=
  n + (uuid_calls 1 (value_counts options) - variant_count (value_counts options)) + i.

(** Some step of the path writes the key [j]: as the field of its
    option, or as a property copied from the chosen value. *)
Definition written_on (path : list choice) (j : string) : bool :=
  existsb (fun c => bool_decide (toLowerCase (po_name c.1) = j) || copied_by c.2 j)
          path.

(** The flag is given a falsy value: the empty string, the number 0 or
    [false]. *)
Definition falsy_flag (flag : option argval) : Prop :=
  flag = Some (ArgString "")
  ∨ (∃ text, flag = Some (ArgNumber true text))
  ∨ flag = Some (ArgBoolean false).

(** A bare label as the object that has this name and nothing else. *)
Definition objectify (v : Value) : Value :=
  match v with
  | VString label =>
      VObject {| ov_name := label; ov_price := None;
                 ov_description := None; ov_extra := ∅ |}
  | VObject o => VObject o
  end.

Definition objectify_option (o : ProductOption) : ProductOption :=
  {| po_name := po_name o; po_values := objectify <$> po_values o |}.

Definition objectify_product (p : Product) : Product :=
  {| p_id := p_id p; p_name := p_name p;
     p_options := objectify_option <$> p_options p;
     p_description := p_description p |}.

(** The paths of a catalogue: those of the first product, then those of
    the second, and so on. *)
Definition catalogue_paths (products : list Product) : list (Product * list choice) :=
  products ≫= (fun p => pair p <$> lex_paths (p_options p)).

(** A runtime that answers every comparison with a non-number by [true]. *)
Definition rt1 : Runtime :=
  {| randomUUID := fun k => String.append "uuid-" (pretty k);
     gt_coerced := fun _ _ => true |}.

(** A runtime with another supply of identifiers. *)
Definition rt2 : Runtime :=
  {| randomUUID := fun k => String.append "id-" (pretty (k + 100));
     gt_coerced := fun _ _ => false |}.

(** ** The identifier-drawing combinators *)

Lemma mapG_fresh {A B} (rt : Runtime) (g : A -> string -> B) (xs : list A) (n : nat) :
  mapG (fun x => let* id := fresh rt in gen_ret (g x id)) xs n
  = (imap (fun i x => g x (randomUUID rt (n + i))) xs, n + length xs).
Proof.
  revert n. induction xs as [|x xs IH]; intros n; simpl.
  - by rewrite Nat.add_0_r.
  - unfold gen_bind at 1. unfold gen_bind at 1. simpl.
    unfold gen_bind at 1. rewrite IH. simpl.
    rewrite Nat.add_0_r. f_equal; [|lia]. f_equal.
    apply imap_ext. intros i y _. simpl. do 2 f_equal. lia.
Qed.

Lemma reduceG_app {A B} (f : B -> A -> Gen B) (xs ys : list A) (acc : B) (n : nat) :
  reduceG f (xs ++ ys) acc n
  = reduceG f ys (reduceG f xs acc n).1 (reduceG f xs acc n).2.
Proof.
  revert acc n. induction xs as [|x xs IH]; intros acc n; simpl; [done|].
  unfold gen_bind. destruct (f acc x n) as [acc' n']. apply IH.
Qed.

Lemma flatMapG_cons {A B} (f : A -> Gen (list B)) (x : A) (xs : list A) (n : nat) :
  flatMapG f (x :: xs) n
  = ((f x n).1 ++ (flatMapG f xs (f x n).2).1, (flatMapG f xs (f x n).2).2).
Proof.
  unfold flatMapG. simpl. unfold gen_bind. simpl.
  destruct (f x n) as [ys n1]. simpl.
  destruct (mapG f xs n1) as [yss n2]. reflexivity.
Qed.

Lemma expand_option_cons (rt : Runtime) (p : Product) (c : gmap string jsval)
    (cs : list (gmap string jsval)) (o : ProductOption) (n : nat) :
  (expand_option rt p (c :: cs) o n).1
  = imap (fun i v => make_variant rt p o c v (randomUUID rt (n + i))) (po_values o)
    ++ (expand_option rt p cs o (n + length (po_values o))).1.
Proof.
  unfold expand_option. rewrite flatMapG_cons. simpl.
  by rewrite (mapG_fresh rt (make_variant rt p o c)).
Qed.

(** ** Assignment to a property *)

Lemma own_js_set_ne (o : object) (k j : string) (x : jsval) :
  k ≠ j → own (js_set o k x) !! j = own o !! j.
Proof.
  intros Hk. unfold js_set. destruct (_ && _); simpl; [done|].
  by apply lookup_insert_ne.
Qed.

(** Any key but [__proto__] is an ordinary one. *)
Lemma js_set_ordinary (o : object) (k : string) (x : jsval) :
  k ≠ "__proto__" →
  js_set o k x = {| own := <[k := x]> (own o); proto_accessor := proto_accessor o |}.
Proof. intros Hk. unfold js_set. by rewrite bool_decide_eq_false_2. Qed.

Lemma own_js_set_eq (o : object) (k : string) (x : jsval) :
  k ≠ "__proto__" → own (js_set o k x) !! k = Some x.
Proof. intros Hk. rewrite js_set_ordinary by done. apply lookup_insert_eq. Qed.

(** An assignment removes no property. *)
Lemma js_set_is_Some (o : object) (k j : string) (x : jsval) :
  is_Some (own o !! j) → is_Some (own (js_set o k x) !! j).
Proof.
  intros Hs. unfold js_set. destruct (_ && _); simpl; [done|].
  rewrite lookup_insert_is_Some'. by right.
Qed.

(** ** Objects that differ at most under one key *)

Section AgreeOff.

Variable rt : Runtime.
Variable p : Product.

Lemma agree_off_refl k a : agree_off k a a.
Proof. by intros j _. Qed.

Lemma agree_off_insert k a b i x :
  agree_off k a b → agree_off k (<[i := x]> a) (<[i := x]> b).
Proof.
  intros H j Hj. destruct (decide (i = j)) as [->|Hne].
  - by rewrite !lookup_insert_eq.
  - rewrite !lookup_insert_ne by done. by apply H.
Qed.

(** Writing the key under which two objects differ makes them equal. *)
Lemma agree_off_insert_eq k a b x :
  agree_off k a b → <[k := x]> a = <[k := x]> b.
Proof.
  intros H. apply map_eq. intros j. destruct (decide (k = j)) as [<-|Hne].
  - by rewrite !lookup_insert_eq.
  - rewrite !lookup_insert_ne by done. apply H. congruence.
Qed.

Lemma agree_off_insert_same k a x y : agree_off k (<[k := x]> a) (<[k := y]> a).
Proof. intros j Hj. by rewrite !lookup_insert_ne. Qed.

Lemma agree_off_get k a b j : agree_off k a b → j ≠ k → js_get a j = js_get b j.
Proof. intros H Hj. unfold js_get. by rewrite (H j Hj). Qed.

Lemma agree_objects_literal k a b :
  agree_off k a b → agree_objects k (literal a) (literal b).
Proof. intros H. split; [done|by right]. Qed.

Lemma agree_objects_js_set k a b i x :
  agree_objects k a b → agree_objects k (js_set a i x) (js_set b i x).
Proof.
  intros [H Hacc]. destruct (decide (i = "__proto__")) as [->|Hi].
  - destruct (decide (k = "__proto__")) as [->|Hk].
    + split; [|by left]. intros j Hj. rewrite !own_js_set_ne by done. by apply H.
    + destruct Hacc as [?|Hacc]; [done|].
      unfold js_set. rewrite Hacc, (H "__proto__") by done.
      destruct (_ && _); simpl.
      * split; [done|by right].
      * split; [by apply agree_off_insert|by right].
  - rewrite !js_set_ordinary by done. split; [by apply agree_off_insert|done].
Qed.

(** Writing the key under which two objects differ makes them equal. *)
Lemma agree_objects_js_set_eq k a b x :
  k ≠ "__proto__" → agree_objects k a b → js_set a k x = js_set b k x.
Proof.
  intros Hk [H [Hacc|Hacc]]; [done|].
  rewrite !js_set_ordinary by done. f_equal; [|done].
  by apply agree_off_insert_eq.
Qed.

Lemma agree_objects_js_set_same k a x y :
  agree_objects k (js_set a k x) (js_set a k y).
Proof.
  destruct (decide (k = "__proto__")) as [->|Hk].
  - split; [|by left]. intros j Hj. by rewrite !own_js_set_ne.
  - rewrite !js_set_ordinary by done. split; [apply agree_off_insert_same|by right].
Qed.

Lemma base_fields_agree_off k a b id :
  k ≠ "price" → k ≠ "description" →
  agree_off k a b → agree_off k (base_fields p a id) (base_fields p b id).
Proof.
  intros Hp Hd H. unfold base_fields.
  rewrite (agree_off_get k a b "price" H) by done.
  rewrite (agree_off_get k a b "description" H) by done.
  by do 5 apply agree_off_insert.
Qed.

Lemma base_fields_agree a b id :
  agree_off "id" a b → base_fields p a id = base_fields p b id.
Proof.
  intros H. unfold base_fields.
  rewrite (agree_off_get "id" a b "price" H) by done.
  rewrite (agree_off_get "id" a b "description" H) by done.
  by rewrite (agree_off_insert_eq "id" a b _ H).
Qed.

Lemma base_fields_id c id1 id2 :
  agree_off "id" (base_fields p c id1) (base_fields p c id2).
Proof. unfold base_fields. do 4 apply agree_off_insert. apply agree_off_insert_same. Qed.

Lemma update_price_agree k o a b :
  k ≠ "price" →
  agree_objects k a b → agree_objects k (update_price rt o a) (update_price rt o b).
Proof.
  intros Hk H. unfold update_price.
  rewrite (agree_off_get k (own a) (own b) "price" (proj1 H)) by done.
  destruct (_ || _); [by apply agree_objects_js_set|done].
Qed.

Lemma copy_keys_agree k o ks a b :
  agree_objects k a b →
  agree_objects k (foldl (copy_key o) a ks) (foldl (copy_key o) b ks).
Proof.
  revert a b. induction ks as [|key ks IH]; intros a b H; simpl; [done|].
  apply IH. unfold copy_key. destruct (_ || _); [done|].
  by apply agree_objects_js_set.
Qed.

(** What a step does after the object literal. *)
Lemma make_variant_after_base k o v a b :
  k ≠ "price" →
  agree_objects k a b →
  agree_off k
    (match v with
     | VString label => own (js_set a (toLowerCase (po_name o)) (JStr label))
     | VObject ov =>
         own (foldl (copy_key ov)
                (update_price rt ov
                   (js_set a (toLowerCase (po_name o)) (JStr (ov_name ov))))
                (ov_keys ov))
     end)
    (match v with
     | VString label => own (js_set b (toLowerCase (po_name o)) (JStr label))
     | VObject ov =>
         own (foldl (copy_key ov)
                (update_price rt ov
                   (js_set b (toLowerCase (po_name o)) (JStr (ov_name ov))))
                (ov_keys ov))
     end).
Proof.
  intros Hk H. destruct v as [label|ov].
  - by apply agree_objects_js_set.
  - by apply copy_keys_agree, update_price_agree, agree_objects_js_set.
Qed.

Lemma make_variant_agree_off k o a b v id :
  k ≠ "price" → k ≠ "description" →
  agree_off k a b →
  agree_off k (make_variant rt p o a v id) (make_variant rt p o b v id).
Proof.
  intros Hp Hd H. unfold make_variant.
  by apply (make_variant_after_base k o v), agree_objects_literal,
    base_fields_agree_off.
Qed.

Lemma make_variant_agree o a b v id :
  agree_off "id" a b → make_variant rt p o a v id = make_variant rt p o b v id.
Proof. intros H. unfold make_variant. by rewrite (base_fields_agree a b id H). Qed.

Lemma make_variant_id o c v id1 id2 :
  agree_off "id" (make_variant rt p o c v id1) (make_variant rt p o c v id2).
Proof.
  unfold make_variant. apply (make_variant_after_base "id" o v); [done|].
  apply agree_objects_literal, base_fields_id.
Qed.

Lemma foldl_make_variant_agree path a b id1 id2 :
  agree_off "id" a b →
  agree_off "id"
    (foldl (fun combination c => make_variant rt p c.1 combination c.2 id1) a path)
    (foldl (fun combination c => make_variant rt p c.1 combination c.2 id2) b path).
Proof.
  revert a b. induction path as [|[o v] path IH]; intros a b H; simpl; [done|].
  apply IH. rewrite (make_variant_agree o a b v id1 H). apply make_variant_id.
Qed.

Lemma variant_of_path_id path id1 id2 :
  agree_off "id" (variant_of_path rt p path id1) (variant_of_path rt p path id2).
Proof. apply foldl_make_variant_agree, agree_off_refl. Qed.

Lemma variant_of_path_snoc path o v id :
  variant_of_path rt p (path ++ [(o, v)]) id
  = make_variant rt p o (variant_of_path rt p path id) v id.
Proof. unfold variant_of_path. by rewrite foldl_app. Qed.

Lemma variant_of_path_app path1 path2 id :
  variant_of_path rt p (path1 ++ path2) id
  = foldl (fun combination c => make_variant rt p c.1 combination c.2 id)
          (variant_of_path rt p path1 id) path2.
Proof. unfold variant_of_path. by rewrite foldl_app. Qed.

(** A variant built along a path, extended by one more choice: the
    identifier given to the earlier steps does not matter. *)
Lemma make_variant_of_path path o v id0 id :
  make_variant rt p o (variant_of_path rt p path id0) v id
  = variant_of_path rt p (path ++ [(o, v)]) id.
Proof.
  rewrite variant_of_path_snoc. apply make_variant_agree, variant_of_path_id.
Qed.

(** The label of the chosen value reaches the variant through the
    option's field only. *)
Lemma make_variant_relabel o c v label id :
  toLowerCase (po_name o) ≠ "price" →
  agree_off (toLowerCase (po_name o))
    (make_variant rt p o c v id) (make_variant rt p o c (relabel v label) id).
Proof.
  intros Hp. unfold make_variant. destruct v as [l|ov]; simpl.
  - apply agree_objects_js_set_same.
  - unfold ov_keys, extra_keys. simpl.
    assert (∀ a ks,
      foldl (copy_key {| ov_name := label; ov_price := ov_price ov;
                         ov_description := ov_description ov;
                         ov_extra := ov_extra ov |}) a ks
      = foldl (copy_key ov) a ks) as ->.
    { intros a ks. revert a. induction ks as [|key ks IH]; intros a; simpl; [done|].
      rewrite IH. f_equal. unfold copy_key, ov_get. simpl.
      destruct (bool_decide (toLowerCase key = "name")); done. }
    assert (∀ a,
      update_price rt {| ov_name := label; ov_price := ov_price ov;
                         ov_description := ov_description ov;
                         ov_extra := ov_extra ov |} a
      = update_price rt ov a) as -> by done.
    apply copy_keys_agree, update_price_agree; [done|].
    apply agree_objects_js_set_same.
Qed.

(** The step of an option overwrites the option's field. *)
Lemma make_variant_masks o a b v id :
  toLowerCase (po_name o) ≠ "price" →
  toLowerCase (po_name o) ≠ "description" →
  toLowerCase (po_name o) ≠ "__proto__" →
  agree_off (toLowerCase (po_name o)) a b →
  make_variant rt p o a v id = make_variant rt p o b v id.
Proof.
  intros Hp Hd Hproto H. unfold make_variant.
  pose proof (agree_objects_literal _ _ _ (base_fields_agree_off _ a b id Hp Hd H)) as Hb.
  destruct v as [label|ov].
  - by rewrite (agree_objects_js_set_eq _ _ _ (JStr label) Hproto Hb).
  - by rewrite (agree_objects_js_set_eq _ _ _ (JStr (ov_name ov)) Hproto Hb).
Qed.

End AgreeOff.

(** ** The order of the paths *)

Lemma list_bind_singleton_fmap {A B} (f : A -> B) (l : list A) :
  l ≫= (fun x => [f x]) = f <$> l.
Proof. induction l as [|x l IH]; [done|]. rewrite bind_cons, IH. done. Qed.

Lemma list_bind_bind {A B C} (f : A -> list B) (g : B -> list C) (l : list A) :
  (l ≫= f) ≫= g = l ≫= (fun x => f x ≫= g).
Proof.
  induction l as [|x l IH]; [done|].
  by rewrite !bind_cons, bind_app, IH.
Qed.

Lemma list_bind_fmap {A B C} (f : A -> list B) (g : B -> C) (l : list A) :
  g <$> (l ≫= f) = l ≫= (fun x => g <$> f x).
Proof.
  induction l as [|x l IH]; [done|].
  by rewrite !bind_cons, fmap_app, IH.
Qed.

(** The left fold of the reduction visits the options in declaration
    order and appends a choice to every path built so far; this is the
    same sequence as the nested iteration of [lex_paths]. *)
Lemma lex_paths_snoc (options : list ProductOption) (o : ProductOption) :
  lex_paths (options ++ [o])
  = lex_paths options ≫= (fun path => (fun v => path ++ [(o, v)]) <$> po_values o).
Proof.
  induction options as [|o' options IH]; simpl.
  - rewrite app_nil_r. apply (list_bind_singleton_fmap (fun v => [(o, v)])).
  - rewrite IH, list_bind_bind. apply list_bind_ext; [|done]. intros v'.
    rewrite list_bind_fmap, list_fmap_bind. apply list_bind_ext; [|done].
    intros path. simpl. rewrite <- list_fmap_compose. done.
Qed.

(** ** The variants of a product, path by path *)

Lemma Forall2_imap_r {A B} (R : B -> A -> Prop) (f : nat -> A -> B) (l : list A) :
  (∀ i x, l !! i = Some x → R (f i x) x) → Forall2 R (imap f l) l.
Proof.
  revert f. induction l as [|x l IH]; intros f H; simpl; constructor.
  - by apply (H 0).
  - apply IH. intros i y Hy. by apply (H (S i)).
Qed.

Lemma expand_option_paths (rt : Runtime) (p : Product) (o : ProductOption)
    (combinations : list (gmap string jsval)) (paths : list (list choice)) :
  Forall2 (built_along rt p) combinations paths →
  ∀ n, Forall2 (built_along rt p) (expand_option rt p combinations o n).1
         (paths ≫= (fun path => (fun v => path ++ [(o, v)]) <$> po_values o)).
Proof.
  induction 1 as [|c path cs paths [k ->] _ IH]; intros n.
  - constructor.
  - rewrite expand_option_cons, bind_cons. apply Forall2_app; [|apply IH].
    apply Forall2_fmap_r, Forall2_imap_r. intros i v _.
    exists (n + i). apply make_variant_of_path.
Qed.

(** The variants that [generateCombinations] returns are, position by
    position, the variants built along the paths of the nested
    iteration over the options. *)
Lemma generateCombinations_paths (rt : Runtime) (p : Product) (n : nat) :
  Forall2 (built_along rt p) (generateCombinations rt p n).1 (lex_paths (p_options p)).
Proof.
  unfold generateCombinations. generalize (p_options p) as options.
  induction options as [|o options IH] using rev_ind; simpl.
  - repeat constructor. by exists 0.
  - rewrite reduceG_app, lex_paths_snoc. simpl. unfold gen_bind.
    destruct (reduceG _ options _ n) as [combinations n'] eqn:E. simpl in *.
    pose proof (expand_option_paths rt p o combinations _ IH n') as H.
    destruct (expand_option rt p combinations o n') as [cs n'']. exact H.
Qed.

Lemma generateCombinations_lookup (rt : Runtime) (p : Product) (n i : nat)
    (variant : gmap string jsval) (path : list choice) :
  (generateCombinations rt p n).1 !! i = Some variant →
  lex_paths (p_options p) !! i = Some path →
  built_along rt p variant path.
Proof.
  intros Hv Hp. eapply Forall2_lookup_lr; eauto using generateCombinations_paths.
Qed.

(** ** One step of the reduction, key by key *)

Lemma lower_ascii_idemp (c : ascii) : lower_ascii (lower_ascii c) = lower_ascii c.
Proof. by destruct c as [[] [] [] [] [] [] [] []]. Qed.

Lemma toLowerCase_idemp (s : string) : toLowerCase (toLowerCase s) = toLowerCase s.
Proof. induction s as [|c s IH]; simpl; [done|]. by rewrite lower_ascii_idemp, IH. Qed.

(** A lower-cased name is none of the camel-case base properties. *)
Lemma toLowerCase_not_camel (s : string) :
  toLowerCase s ≠ "parentProductId" ∧ toLowerCase s ≠ "parentProductName".
Proof.
  split; intros H; pose proof (toLowerCase_idemp s) as Hi;
    rewrite H in Hi; discriminate Hi.
Qed.

Lemma copies_cons (k : string) (ks : list string) (j : string) :
  copies (k :: ks) j
  = bool_decide (j ≠ "name") && bool_decide (j ≠ "price")
    && bool_decide (toLowerCase k = j) || copies ks j.
Proof.
  unfold copies. rewrite fmap_cons.
  destruct (bool_decide (j ≠ "name")), (bool_decide (j ≠ "price")); simpl; try done.
  apply eq_true_iff_eq. rewrite orb_true_iff, !bool_decide_eq_true, elem_of_cons.
  split; (intros [?|?]; [left|right]); done.
Qed.

Lemma own_copy_key (o : OptionValue) (k : string) (variant : object) (j : string) :
  j ≠ "__proto__" →
  own (copy_key o variant k) !! j
  = if bool_decide (j ≠ "name") && bool_decide (j ≠ "price")
       && bool_decide (toLowerCase k = j)
    then Some (ov_get o j) else own variant !! j.
Proof.
  intros Hj. unfold copy_key. destruct (decide (toLowerCase k = j)) as [<-|Hne].
  - rewrite (bool_decide_eq_true_2 (toLowerCase k = toLowerCase k)) by done.
    rewrite andb_true_r.
    repeat case_bool_decide; simpl; try done; try congruence.
    by rewrite own_js_set_eq.
  - rewrite (bool_decide_eq_false_2 (toLowerCase k = j)) by done.
    rewrite andb_false_r.
    destruct (_ || _); [done|]. by rewrite own_js_set_ne.
Qed.

(** The properties that the loop copies, [__proto__] apart. *)
Lemma own_copy_keys (o : OptionValue) (ks : list string) (variant : object)
    (j : string) :
  j ≠ "__proto__" →
  own (foldl (copy_key o) variant ks) !! j
  = if copies ks j then Some (ov_get o j) else own variant !! j.
Proof.
  intros Hj. revert variant. induction ks as [|k ks IH]; intros variant.
  - unfold copies. rewrite (bool_decide_eq_false_2 (j ∈ _)) by apply not_elem_of_nil.
    by rewrite andb_false_r.
  - simpl. rewrite IH, copies_cons, own_copy_key by done.
    destruct (copies ks j); [by rewrite orb_true_r|]. by rewrite orb_false_r.
Qed.

(** A key that the loop does not reach keeps its binding. *)
Lemma own_copy_keys_other (o : OptionValue) (ks : list string) (variant : object)
    (j : string) :
  copies ks j = false →
  own (foldl (copy_key o) variant ks) !! j = own variant !! j.
Proof.
  revert variant. induction ks as [|k ks IH]; intros variant Hc; [done|].
  rewrite copies_cons in Hc. apply orb_false_iff in Hc as [Hk Hks].
  simpl. rewrite IH by done. unfold copy_key.
  destruct (decide (toLowerCase k = j)) as [<-|Hne].
  - rewrite (bool_decide_eq_true_2 (toLowerCase k = toLowerCase k)) in Hk by done.
    rewrite andb_true_r in Hk. apply andb_false_iff in Hk.
    rewrite !bool_decide_eq_false in Hk.
    destruct Hk as [Hk%dec_stable|Hk%dec_stable]; by rewrite Hk.
  - destruct (_ || _); [done|]. by rewrite own_js_set_ne.
Qed.

(** The loop removes no property. *)
Lemma copy_keys_is_Some (o : OptionValue) (ks : list string) (variant : object)
    (j : string) :
  is_Some (own variant !! j) → is_Some (own (foldl (copy_key o) variant ks) !! j).
Proof.
  revert variant. induction ks as [|k ks IH]; intros variant Hs; [done|].
  simpl. apply IH. unfold copy_key. destruct (_ || _); [done|].
  by apply js_set_is_Some.
Qed.

Section Step.

Variable rt : Runtime.
Variable p : Product.

Lemma lookup_base_fields_other c id j :
  j ∉ base_keys → base_fields p c id !! j = c !! j.
Proof.
  unfold base_keys, base_fields. rewrite !not_elem_of_cons. intros (?&?&?&?&?&_).
  by rewrite !lookup_insert_ne.
Qed.

Lemma lookup_base_fields_price c id :
  base_fields p c id !! "price" = Some (js_get c "price").
Proof. unfold base_fields. by rewrite lookup_insert_eq. Qed.

Lemma lookup_base_fields_description c id :
  base_fields p c id !! "description"
  = Some (coalesce (js_get c "description") (JStr (p_description p))).
Proof. unfold base_fields. by rewrite lookup_insert_ne, lookup_insert_eq. Qed.

Lemma own_update_price_ne o variant j :
  j ≠ "price" → own (update_price rt o variant) !! j = own variant !! j.
Proof.
  intros Hj. unfold update_price. destruct (_ || _); [|done].
  by rewrite own_js_set_ne.
Qed.

Lemma update_price_is_Some o variant j :
  is_Some (own variant !! j) → is_Some (own (update_price rt o variant) !! j).
Proof.
  intros Hs. unfold update_price. destruct (_ || _); [|done].
  by apply js_set_is_Some.
Qed.

Lemma copies_ov_keys o j :
  copies (ov_keys o) j
  = bool_decide (j ≠ "name") && bool_decide (j ≠ "price")
    && (bool_decide (j = "description") && bool_decide (is_Some (ov_description o))
        || bool_decide (j ∈ toLowerCase <$> extra_keys o)).
Proof.
  unfold copies, ov_keys.
  destruct (bool_decide (j ≠ "name")) eqn:E1; [|done].
  destruct (bool_decide (j ≠ "price")) eqn:E2; [|done]. cbn [andb].
  apply bool_decide_eq_true in E1, E2.
  apply eq_true_iff_eq.
  rewrite orb_true_iff, andb_true_iff, !bool_decide_eq_true.
  rewrite fmap_cons, !fmap_app, elem_of_cons, !elem_of_app.
  change (toLowerCase "name") with "name".
  destruct (ov_price o), (ov_description o); cbn [opt_key fmap list_fmap];
    change (toLowerCase "price") with "price";
    change (toLowerCase "description") with "description";
    rewrite ?elem_of_cons, ?elem_of_nil; split; intros H.
  all: repeat match goal with
       | H : _ ∨ _ |- _ => destruct H
       | H : _ ∧ _ |- _ => destruct H
       | H : is_Some None |- _ => by destruct H
       | H : False |- _ => destruct H
       end; try congruence; eauto 10.
Qed.

Lemma copied_by_extra v j :
  j ≠ "description" → carries_extra v j = false → copied_by v j = false.
Proof.
  intros Hj Hx. destruct v as [label|o]; [done|]. simpl in *.
  rewrite copies_ov_keys, Hx, (bool_decide_eq_false_2 (j = "description")) by done.
  by rewrite !andb_false_r.
Qed.

(** A key that the step neither writes as a base property, nor as the
    option's field, nor copies from the value, keeps its binding. *)
Lemma lookup_make_variant_other o c v id j :
  j ∉ base_keys → toLowerCase (po_name o) ≠ j → copied_by v j = false →
  make_variant rt p o c v id !! j = c !! j.
Proof.
  intros Hb Hn Hc. unfold make_variant. destruct v as [label|ov].
  - rewrite own_js_set_ne by done. by apply lookup_base_fields_other.
  - simpl in Hc. rewrite own_copy_keys_other, own_update_price_ne by done || (
      intros ->; apply Hb; unfold base_keys; set_solver).
    rewrite own_js_set_ne by done. by apply lookup_base_fields_other.
Qed.

(** The option's own field, right after the option's step. *)
Lemma lookup_make_variant_field o c v id :
  toLowerCase (po_name o) ≠ "price" →
  toLowerCase (po_name o) ≠ "__proto__" →
  copied_by v (toLowerCase (po_name o)) = false →
  make_variant rt p o c v id !! toLowerCase (po_name o) = Some (JStr (label_of v)).
Proof.
  intros Hp Hproto Hc. unfold make_variant. destruct v as [label|ov].
  - by rewrite own_js_set_eq.
  - simpl in Hc. rewrite own_copy_keys_other, own_update_price_ne by done.
    by rewrite own_js_set_eq.
Qed.

(** What the step copies from an object value. *)
Lemma lookup_make_variant_copied o c ov id j :
  j ≠ "__proto__" →
  copies (ov_keys ov) j = true →
  make_variant rt p o c (VObject ov) id !! j = Some (ov_get ov j).
Proof. intros Hj Hc. unfold make_variant. by rewrite own_copy_keys, Hc. Qed.

(** A property of the object literal is one of the variant. *)
Lemma make_variant_keeps o c v id j :
  is_Some (base_fields p c id !! j) → is_Some (make_variant rt p o c v id !! j).
Proof.
  intros Hb. unfold make_variant. destruct v as [label|ov].
  - by apply js_set_is_Some.
  - by apply copy_keys_is_Some, update_price_is_Some, js_set_is_Some.
Qed.

(** A step binds keys and unbinds none. *)
Lemma make_variant_is_Some o c v id j :
  is_Some (c !! j) → is_Some (make_variant rt p o c v id !! j).
Proof.
  intros Hs. apply make_variant_keeps.
  unfold base_fields. rewrite !lookup_insert_is_Some'. auto 10.
Qed.

(** The description after a step. *)
Lemma lookup_make_variant_description o c v id :
  toLowerCase (po_name o) ≠ "description" →
  carries_extra v "description" = false →
  make_variant rt p o c v id !! "description"
  = Some (match description_of v with
          | Some d => JStr d
          | None => coalesce (js_get c "description") (JStr (p_description p))
          end).
Proof.
  intros Hn Hx. unfold make_variant. destruct v as [label|ov].
  - rewrite own_js_set_ne by done. apply lookup_base_fields_description.
  - simpl in Hx. rewrite own_copy_keys, copies_ov_keys, Hx by done.
    rewrite (bool_decide_eq_true_2 ("description" ≠ "name")) by done.
    rewrite (bool_decide_eq_true_2 ("description" ≠ "price")) by done.
    rewrite (bool_decide_eq_true_2 ("description" = "description")) by done.
    cbn [andb description_of]. rewrite orb_false_r. destruct (ov_description ov) as [d|] eqn:E.
    + rewrite bool_decide_eq_true_2 by eauto. unfold ov_get. simpl. by rewrite E.
    + rewrite bool_decide_eq_false_2 by (by intros [? ?]).
      rewrite own_update_price_ne by done.
      rewrite own_js_set_ne by done. apply lookup_base_fields_description.
Qed.

(** The price after a step. *)
Lemma make_variant_price o c v id :
  toLowerCase (po_name o) ≠ "price" →
  js_get (make_variant rt p o c v id) "price"
  = match v with
    | VString _ => js_get c "price"
    | VObject ov =>
        if is_undefined (js_get c "price") || js_gt rt (ov_price ov) (js_get c "price")
        then price_val (ov_price ov)
        else js_get c "price"
    end.
Proof.
  intros Hn. unfold make_variant, js_get at 1. destruct v as [label|ov].
  - rewrite own_js_set_ne by done. cbn [literal own].
    by rewrite lookup_base_fields_price.
  - rewrite own_copy_keys by done. unfold copies at 1.
    rewrite (bool_decide_eq_false_2 ("price" ≠ "price")) by (by intros []).
    rewrite andb_false_r. cbn [andb]. unfold update_price.
    assert (js_get (own (js_set (literal (base_fields p c id))
                           (toLowerCase (po_name o)) (JStr (ov_name ov)))) "price"
            = js_get c "price") as ->.
    { unfold js_get. rewrite own_js_set_ne by done. cbn [literal own].
      by rewrite lookup_base_fields_price. }
    destruct (_ || _).
    + by rewrite own_js_set_eq.
    + rewrite own_js_set_ne by done. cbn [literal own].
      by rewrite lookup_base_fields_price.
Qed.

(** The parent's identity after a step. *)
Lemma lookup_make_variant_parent o c v id :
  make_variant rt p o c v id !! "parentProductId" = Some (JNum (p_id p))
  ∧ make_variant rt p o c v id !! "parentProductName" = Some (JStr (p_name p)).
Proof.
  assert (∀ j x, (j = "parentProductId" ∨ j = "parentProductName") →
            base_fields p c id !! j = Some x →
            make_variant rt p o c v id !! j = Some x) as H.
  { intros j x Hj Hb.
    assert (∀ s, toLowerCase s ≠ j) as Hlow.
    { intros s. destruct (toLowerCase_not_camel s), Hj; congruence. }
    unfold make_variant. destruct v as [label|ov].
    - by rewrite own_js_set_ne.
    - rewrite own_copy_keys_other.
      + rewrite own_update_price_ne by (destruct Hj; by subst).
        by rewrite own_js_set_ne.
      + unfold copies. rewrite (bool_decide_eq_false_2 (j ∈ _)); [by rewrite andb_false_r|].
        rewrite list_elem_of_fmap. intros (k & Hk & _). by apply (Hlow k). }
  split; apply H; auto; unfold base_fields.
  - do 3 rewrite lookup_insert_ne by done. by rewrite lookup_insert_eq.
  - do 2 rewrite lookup_insert_ne by done. by rewrite lookup_insert_eq.
Qed.

End Step.

(** ** The fields of a variant, along its path *)

Section Path.

Variable rt : Runtime.
Variable p : Product.

Lemma names_avoid_app j path1 path2 :
  names_avoid j (path1 ++ path2) = names_avoid j path1 && names_avoid j path2.
Proof. apply forallb_app. Qed.

Lemma extras_avoid_app j path1 path2 :
  extras_avoid j (path1 ++ path2) = extras_avoid j path1 && extras_avoid j path2.
Proof. apply forallb_app. Qed.

Lemma names_avoid_snoc j path o v :
  names_avoid j (path ++ [(o, v)]) = true →
  names_avoid j path = true ∧ toLowerCase (po_name o) ≠ j.
Proof.
  rewrite names_avoid_app, andb_true_iff. simpl. rewrite andb_true_r.
  by rewrite bool_decide_eq_true.
Qed.

Lemma extras_avoid_snoc j path o v :
  extras_avoid j (path ++ [(o, v)]) = true →
  extras_avoid j path = true ∧ carries_extra v j = false.
Proof.
  rewrite extras_avoid_app, andb_true_iff. simpl. rewrite andb_true_r.
  by rewrite negb_true_iff.
Qed.

Lemma variant_of_path_nil id : variant_of_path rt p [] id = ∅.
Proof. done. Qed.

(** The description is the last one carried on the path, the product's
    when none is. *)
Lemma variant_of_path_description path id :
  path ≠ [] →
  names_avoid "description" path = true →
  extras_avoid "description" path = true →
  variant_of_path rt p path id !! "description"
  = Some (JStr (default (p_description p) (last (carried_descriptions path)))).
Proof.
  induction path as [|[o v] path IH] using rev_ind; [done|].
  intros _ [Hn Ho]%names_avoid_snoc [Hx Hv]%extras_avoid_snoc.
  rewrite variant_of_path_snoc, lookup_make_variant_description by done.
  unfold carried_descriptions. rewrite omap_app. simpl.
  destruct (description_of v) as [d|]; simpl.
  - by rewrite last_snoc.
  - rewrite app_nil_r. destruct path as [|c path].
    + done.
    + unfold js_get. rewrite IH by done. done.
Qed.

Lemma max_price_snoc path o v :
  max_price (path ++ [(o, v)])
  = match price_of v with
    | None => max_price path
    | Some x => Some (match max_price path with None => x | Some m => Z.max m x end)
    end.
Proof.
  unfold max_price, carried_prices. rewrite omap_app. simpl.
  destruct (price_of v); simpl.
  - by rewrite foldl_app.
  - by rewrite app_nil_r.
Qed.

(** The price is the greatest one carried on the path. *)
Lemma variant_of_path_price path id :
  names_avoid "price" path = true →
  js_get (variant_of_path rt p path id) "price" = price_val (max_price path).
Proof.
  induction path as [|[o v] path IH] using rev_ind; [done|].
  intros [Hn Ho]%names_avoid_snoc.
  rewrite variant_of_path_snoc, make_variant_price, max_price_snoc, IH by done.
  destruct v as [label|ov]; simpl; [done|].
  destruct (max_price path) as [m|], (ov_price ov) as [x|]; simpl; try done.
  destruct (Z.ltb_spec m x); f_equal; lia.
Qed.

(** [max_price] is the maximum of the carried prices. *)
Lemma max_price_spec path :
  match max_price path with
  | None => carried_prices path = []
  | Some m => m ∈ carried_prices path ∧ Forall (fun x => (x ≤ m)%Z) (carried_prices path)
  end.
Proof.
  unfold max_price. induction (carried_prices path) as [|x xs IH] using rev_ind; [done|].
  rewrite foldl_app. simpl.
  destruct (foldl _ None xs) as [m|].
  - destruct IH as [Hin Hall]. split.
    + destruct (Z.max_spec m x) as [[_ ->]|[_ ->]]; set_solver.
    + apply Forall_app. split.
      * eapply Forall_impl; [exact Hall|]. simpl. lia.
      * repeat constructor. lia.
  - subst xs. split; [set_solver|]. by repeat constructor.
Qed.

(** The field of an option holds the label chosen for it, when nothing
    written afterwards has the same key. *)
Lemma variant_of_path_field pre o v post id :
  let j := toLowerCase (po_name o) in
  j ∉ ["id"; "description"; "price"; "__proto__"] →
  names_avoid j post = true →
  extras_avoid j ((o, v) :: post) = true →
  variant_of_path rt p (pre ++ (o, v) :: post) id !! j = Some (JStr (label_of v)).
Proof.
  intros j Hj. rewrite !not_elem_of_cons in Hj.
  destruct Hj as (Hid & Hd & Hp & Hproto & _).
  induction post as [|[o' v'] post IH] using rev_ind.
  - intros _ Hx. simpl in Hx. rewrite andb_true_r, negb_true_iff in Hx.
    rewrite variant_of_path_snoc.
    apply lookup_make_variant_field; [done..|]. by apply copied_by_extra.
  - intros [Hn Ho]%names_avoid_snoc Hx.
    rewrite app_comm_cons in Hx. apply extras_avoid_snoc in Hx as [Hx Hv'].
    rewrite app_comm_cons, app_assoc, variant_of_path_snoc.
    rewrite lookup_make_variant_other.
    + by apply IH.
    + pose proof (toLowerCase_not_camel (po_name o)) as [Hc1 Hc2].
      fold j in Hc1, Hc2. unfold base_keys. rewrite !not_elem_of_cons.
      repeat split; try done. apply not_elem_of_nil.
    + done.
    + by apply copied_by_extra.
Qed.

(** A key that no step writes is missing from the variant. *)
Lemma variant_of_path_absent path id j :
  j ∉ base_keys →
  names_avoid j path = true →
  extras_avoid j path = true →
  variant_of_path rt p path id !! j = None.
Proof.
  intros Hb. induction path as [|[o v] path IH] using rev_ind; [done|].
  intros [Hn Ho]%names_avoid_snoc [Hx Hv]%extras_avoid_snoc.
  rewrite variant_of_path_snoc, lookup_make_variant_other; auto.
  apply copied_by_extra; [|done]. intros ->. apply Hb. unfold base_keys. set_solver.
Qed.

(** An extra property of a value on the path, its name in lower case,
    is copied with its value, and stays when no later step writes the
    key. *)
Lemma variant_of_path_copied pre o ov post id j x :
  ov_extra ov !! j = Some x →
  declared_key j = false →
  toLowerCase j = j →
  j ≠ "id" → j ≠ "__proto__" →
  names_avoid j post = true →
  extras_avoid j post = true →
  variant_of_path rt p (pre ++ (o, VObject ov) :: post) id !! j = Some x.
Proof.
  intros Hx Hd Hlow Hid Hproto.
  unfold declared_key in Hd. rewrite !orb_false_iff, !bool_decide_eq_false in Hd.
  destruct Hd as [[Hname Hprice] Hdesc].
  induction post as [|[o' v'] post IH] using rev_ind.
  - intros _ _. rewrite variant_of_path_snoc, lookup_make_variant_copied.
    + unfold ov_get. rewrite !bool_decide_eq_false_2 by done. by rewrite Hx.
    + done.
    + rewrite copies_ov_keys, !(bool_decide_eq_true_2 (j ≠ _)) by done.
      rewrite (bool_decide_eq_true_2 (j ∈ _)); [by rewrite orb_true_r|].
      apply list_elem_of_fmap. exists j. split; [done|].
      unfold extra_keys. apply list_elem_of_filter. split.
      * unfold declared_key. by rewrite !bool_decide_eq_false_2.
      * apply list_elem_of_fmap. exists (j, x). split; [done|].
        by apply elem_of_map_to_list.
  - intros [Hn Ho]%names_avoid_snoc [He Hv]%extras_avoid_snoc.
    rewrite app_comm_cons, app_assoc, variant_of_path_snoc.
    rewrite lookup_make_variant_other.
    + by apply IH.
    + pose proof (toLowerCase_not_camel j) as [Hc1 Hc2]. rewrite Hlow in Hc1, Hc2.
      unfold base_keys. rewrite !not_elem_of_cons.
      repeat split; try done. apply not_elem_of_nil.
    + done.
    + by apply copied_by_extra.
Qed.

(** After at least one step the variant has the five base properties. *)
Lemma variant_of_path_base path id :
  path ≠ [] →
  variant_of_path rt p path id !! "parentProductId" = Some (JNum (p_id p))
  ∧ variant_of_path rt p path id !! "parentProductName" = Some (JStr (p_name p))
  ∧ Forall (fun k => is_Some (variant_of_path rt p path id !! k)) base_keys.
Proof.
  destruct path as [|[o v] path _] using rev_ind; [done|]. intros _.
  rewrite variant_of_path_snoc.
  destruct (lookup_make_variant_parent rt p o (variant_of_path rt p path id) v id)
    as [H1 H2].
  split; [done|]. split; [done|].
  unfold base_keys. repeat constructor; apply make_variant_keeps; unfold base_fields;
    rewrite !lookup_insert_is_Some'; auto 10.
Qed.

End Path.

(** ** Counting and ordering the paths *)

Lemma length_bind_const {A B} (f : A -> list B) (l : list A) (m : nat) :
  (∀ x, length (f x) = m) → length (l ≫= f) = length l * m.
Proof.
  intros H. induction l as [|x l IH]; [done|].
  rewrite bind_cons, length_app, H, IH. simpl. lia.
Qed.

Lemma length_lex_paths (options : list ProductOption) :
  length (lex_paths options) = foldr Nat.mul 1 (value_counts options).
Proof.
  induction options as [|o options IH]; [done|]. simpl.
  rewrite (length_bind_const _ _ (length (lex_paths options))).
  - by rewrite IH.
  - intros v. by rewrite length_fmap.
Qed.

Lemma length_lex_tuples (counts : list nat) :
  length (lex_tuples counts) = foldr Nat.mul 1 counts.
Proof.
  induction counts as [|c counts IH]; [done|]. simpl.
  rewrite (length_bind_const _ _ (length (lex_tuples counts))).
  - by rewrite length_seq, IH.
  - intros v. by rewrite length_fmap.
Qed.

Lemma Forall2_lookup_seq {A} (l : list A) :
  Forall2 (fun x k => l !! k = Some x) l (seq 0 (length l)).
Proof.
  apply Forall2_same_length_lookup_2.
  - by rewrite length_seq.
  - intros i x k Hx Hk. apply lookup_seq in Hk as [-> _]. done.
Qed.

(** The [i]-th path is the one that the [i]-th index tuple selects. *)
Lemma lex_paths_select (options : list ProductOption) :
  Forall2 (fun path tuple => select options tuple = Some path)
          (lex_paths options) (lex_tuples (value_counts options)).
Proof.
  induction options as [|o options IH]; simpl.
  - by repeat constructor.
  - apply Forall2_bind.
    eapply Forall2_impl; [apply Forall2_lookup_seq|].
    intros v k Hk. simpl. apply Forall2_fmap.
    eapply Forall2_impl; [exact IH|].
    intros path tuple Hs. simpl. by rewrite Hk, Hs.
Qed.

Lemma lex_blocks_sorted (tuples : list (list nat)) (s c : nat) :
  StronglySorted lex_lt tuples →
  StronglySorted lex_lt (seq s c ≫= (fun k => cons k <$> tuples)).
Proof.
  intros Hs. revert s. induction c as [|c IHc]; intros s.
  - constructor.
  - cbn [seq]. rewrite bind_cons. apply StronglySorted_app_2; [| |apply IHc].
    + intros t1 t2 (t & -> & _)%list_elem_of_fmap
        (k & (t' & -> & _)%list_elem_of_fmap & Hk%elem_of_seq)%list_elem_of_bind.
      constructor 1. lia.
    + clear IHc. induction Hs as [|t ts _ IHts Hall]; simpl; constructor; [done|].
      apply Forall_fmap. eapply Forall_impl; [exact Hall|].
      intros t' Ht. simpl. by constructor 2.
Qed.

(** [lex_tuples] lists its tuples in strictly increasing lexicographic
    order. *)
Lemma lex_tuples_sorted (counts : list nat) :
  StronglySorted lex_lt (lex_tuples counts).
Proof.
  induction counts as [|c counts IH]; simpl.
  - repeat constructor.
  - by apply lex_blocks_sorted.
Qed.

(** Every tuple within the value counts is listed. *)
Lemma lex_tuples_complete (counts : list nat) (tuple : list nat) :
  Forall2 lt tuple counts → tuple ∈ lex_tuples counts.
Proof.
  revert tuple. induction counts as [|c counts IH]; intros tuple H.
  - inversion H. set_solver.
  - inversion H as [|k c' tuple' counts' Hk Hrest]; subst. simpl.
    apply list_elem_of_bind. exists k. split.
    + apply list_elem_of_fmap. eauto.
    + apply elem_of_seq. lia.
Qed.

Lemma lex_tuples_sound (counts : list nat) (tuple : list nat) :
  tuple ∈ lex_tuples counts → Forall2 lt tuple counts.
Proof.
  revert tuple. induction counts as [|c counts IH]; intros tuple; simpl.
  - intros ->%list_elem_of_singleton. constructor.
  - intros (k & (t' & -> & Ht)%list_elem_of_fmap & Hk%elem_of_seq)%list_elem_of_bind.
    constructor; [lia|]. by apply IH.
Qed.

(** ** The choices of a path *)

Lemma lex_paths_choices (options : list ProductOption) (path : list choice) :
  path ∈ lex_paths options →
  Forall2 (fun c o => c.1 = o ∧ c.2 ∈ po_values o) path options.
Proof.
  revert path. induction options as [|o options IH]; intros path; simpl.
  - intros ->%list_elem_of_singleton. constructor.
  - intros (v & (rest & -> & Hrest)%list_elem_of_fmap & Hv)%list_elem_of_bind.
    constructor; [done|]. by apply IH.
Qed.

Lemma lex_paths_lookup_choice (options : list ProductOption) (path : list choice)
    (i k : nat) (o : ProductOption) :
  lex_paths options !! i = Some path →
  options !! k = Some o →
  ∃ v, path !! k = Some (o, v) ∧ v ∈ po_values o.
Proof.
  intros Hp Ho. apply list_elem_of_lookup_2, lex_paths_choices in Hp.
  destruct (Forall2_lookup_r _ _ _ _ _ Hp Ho) as ([o' v] & Hc & Heq & Hv).
  simpl in *. subst o'. eauto.
Qed.

Lemma foldr_mul_zero (xs ys : list nat) : foldr Nat.mul 1 (xs ++ 0 :: ys) = 0.
Proof. induction xs as [|x xs IH]; simpl; [done|]. rewrite IH. lia. Qed.

Lemma StronglySorted_lookup {A} (R : relation A) (l : list A) (i j : nat) (x y : A) :
  StronglySorted R l → i < j → l !! i = Some x → l !! j = Some y → R x y.
Proof.
  intros Hs. revert i j. induction Hs as [|z l _ IH Hall]; intros i j Hij Hx Hy.
  - done.
  - destruct j as [|j]; [lia|]. destruct i as [|i]; simpl in *.
    + injection Hx as <-. rewrite Forall_forall in Hall.
      by eapply Hall, list_elem_of_lookup_2.
    + apply (IH i j); [lia|done..].
Qed.

(** ** The claims *)

(** C1. The number of variants is the product of the numbers of values
    of the options: one variant for a product without options, none for
    a product one of whose options has no value. *)
Theorem generateCombinations_count (rt : Runtime) (n : nat) (id : Z)
    (name description oname : string) (before after : list ProductOption) :
  (∀ p, length (generateCombinations rt p n).1
        = foldr Nat.mul 1 (value_counts (p_options p)))
  ∧ length (generateCombinations rt
      {| p_id := id; p_name := name; p_options := [];
         p_description := description |} n).1 = 1
  ∧ length (generateCombinations rt
      {| p_id := id; p_name := name;
         p_options := before ++ {| po_name := oname; po_values := [] |} :: after;
         p_description := description |} n).1 = 0.
Proof.
  assert (∀ p, length (generateCombinations rt p n).1
               = foldr Nat.mul 1 (value_counts (p_options p))) as H.
  { intros p. rewrite <- length_lex_paths.
    apply (Forall2_length _ _ _ (generateCombinations_paths rt p n)). }
  split; [exact H|]. split; [done|].
  rewrite H. simpl. unfold value_counts. rewrite fmap_app. apply foldr_mul_zero.
Qed.

(** C8. The variant at position [i] is the one built along the choices
    that the [i]-th index tuple selects, the tuples being enumerated with
    the first-declared option in the outermost loop and the last-declared
    one in the innermost; every later position holds a lexicographically
    greater tuple. *)
Theorem generateCombinations_order (rt : Runtime) (p : Product) (n i : nat)
    (tuple : list nat) :
  lex_tuples (value_counts (p_options p)) !! i = Some tuple →
  (∃ path variant,
      select (p_options p) tuple = Some path
      ∧ (generateCombinations rt p n).1 !! i = Some variant
      ∧ built_along rt p variant path)
  ∧ (∀ j later, i < j →
       lex_tuples (value_counts (p_options p)) !! j = Some later →
       lex_lt tuple later).
Proof.
  intros Ht. split.
  - destruct (Forall2_lookup_r _ _ _ _ _ (lex_paths_select (p_options p)) Ht)
      as (path & Hpath & Hsel).
    destruct (Forall2_lookup_r _ _ _ _ _ (generateCombinations_paths rt p n) Hpath)
      as (variant & Hv & Hb).
    eauto.
  - intros j later Hij Hl.
    eapply (StronglySorted_lookup lex_lt); eauto using lex_tuples_sorted.
Qed.

Lemma generateCombinations_order_witness :
  (∃ path variant,
      select (p_options mockProduct) [0; 1] = Some path
      ∧ (generateCombinations rt0 mockProduct 0).1 !! 1 = Some variant
      ∧ built_along rt0 mockProduct variant path)
  ∧ (∀ j later, 1 < j →
       lex_tuples (value_counts (p_options mockProduct)) !! j = Some later →
       lex_lt [0; 1] later).
Proof. apply (generateCombinations_order rt0 mockProduct 0 1 [0; 1]). reflexivity. Defined.

(** C2, as stated, fails: with two options that each carry a
    description, the variant has the description of the later option,
    not that of the first. *)
Lemma description_first_wins_counterexample :
  carried_descriptions <$> lex_paths (p_options two_descriptions)
  = [["first"; "second"]]
  ∧ (fun variant : gmap string jsval => variant !! "description")
      <$> (generateCombinations rt0 two_descriptions 0).1
    = [Some (JStr "second")].
Proof. split; vm_compute; reflexivity. Qed.

(** C2, amended. For a product with at least one option, none of them
    named [description], and no extra property spelled like
    [description] in another letter case: the description of a variant
    is the one carried by the last option-value on its path that
    carries one, and the product's when none does. *)
Theorem variant_description_last_wins (rt : Runtime) (p : Product) (n i : nat)
    (variant : gmap string jsval) (path : list choice) :
  (generateCombinations rt p n).1 !! i = Some variant →
  lex_paths (p_options p) !! i = Some path →
  p_options p ≠ [] →
  names_avoid "description" path = true →
  extras_avoid "description" path = true →
  variant !! "description"
  = Some (JStr (default (p_description p) (last (carried_descriptions path)))).
Proof.
  intros Hv Hp Ho Hn Hx.
  destruct (generateCombinations_lookup rt p n i variant path Hv Hp) as [k ->].
  apply variant_of_path_description; [|done..].
  intros ->. apply list_elem_of_lookup_2, lex_paths_choices in Hp.
  by inversion Hp.
Qed.

Lemma variant_description_last_wins_witness :
  ∃ variant,
    (generateCombinations rt0 two_descriptions 0).1 !! 0 = Some variant
    ∧ variant !! "description" = Some (JStr "second").
Proof.
  eexists. split; [reflexivity|].
  exact (variant_description_last_wins rt0 two_descriptions 0 0 _
           [({| po_name := "Finish";
                po_values := [override "Gloss" None (Some "first") []] |},
             override "Gloss" None (Some "first") []);
            ({| po_name := "Material";
                po_values := [override "Metal" None (Some "second") []] |},
             override "Metal" None (Some "second") [])]
           eq_refl eq_refl ltac:(discriminate) eq_refl eq_refl).
Defined.

(** C3, as stated, fails: the field of an option named [Price] is the
    variant's [price], although no option-value on the path carries a
    price. *)
Lemma price_without_priced_value_counterexample :
  carried_prices <$> lex_paths (p_options option_named_price) = [[]]
  ∧ (fun variant : gmap string jsval => variant !! "price")
      <$> (generateCombinations rt0 option_named_price 0).1
    = [Some (JStr "cheap")].
Proof. split; vm_compute; reflexivity. Qed.

(** C3, amended. For a product none of whose options is named [price]:
    the price of a variant is the greatest of the prices carried by the
    option-values on its path, and the variant has no price when none
    of them carries one. *)
Theorem variant_price_is_max (rt : Runtime) (p : Product) (n i : nat)
    (variant : gmap string jsval) (path : list choice) :
  (generateCombinations rt p n).1 !! i = Some variant →
  lex_paths (p_options p) !! i = Some path →
  names_avoid "price" path = true →
  match carried_prices path with
  | [] => js_get variant "price" = JUndefined
  | _ :: _ =>
      ∃ m, js_get variant "price" = JNum m
           ∧ m ∈ carried_prices path
           ∧ Forall (fun x => (x ≤ m)%Z) (carried_prices path)
  end.
Proof.
  intros Hv Hp Hn.
  destruct (generateCombinations_lookup rt p n i variant path Hv Hp) as [k ->].
  rewrite variant_of_path_price by done.
  pose proof (max_price_spec path) as Hm.
  destruct (max_price path) as [m|].
  - destruct Hm as [Hin Hall]. destruct (carried_prices path); [by inversion Hin|].
    by exists m.
  - by rewrite Hm.
Qed.

Lemma variant_price_is_max_witness :
  ∃ variant,
    (generateCombinations rt0 (with_options [color; finish; priced_material]) 0).1 !! 1
    = Some variant
    ∧ ∃ m, js_get variant "price" = JNum m
           ∧ m ∈ [50; 65]%Z
           ∧ Forall (fun x => (x ≤ m)%Z) [50; 65]%Z.
Proof.
  eexists. split; [reflexivity|].
  exact (variant_price_is_max rt0 (with_options [color; finish; priced_material]) 0 1 _
           [(color, VString "Red");
            (finish, override "360 wrap print" (Some 50%Z) (Some "Full wrap") []);
            (priced_material, override "plastic" (Some 65%Z) None [])]
           eq_refl eq_refl eq_refl).
Defined.

(** C4, on the failing input: for a product without options the result
    is the seed of the reduction, an object with no property. *)
Theorem no_options_variant_is_empty (rt : Runtime) (n : nat) (id : Z)
    (name description : string) :
  (generateCombinations rt
     {| p_id := id; p_name := name; p_options := [];
        p_description := description |} n).1 = [∅].
Proof. reflexivity. Qed.

(** X4. With at least one option, every variant has the base properties,
    and the parent's identifier and name are the product's. *)
Lemma variant_base_fields (rt : Runtime) (p : Product) (n i : nat)
    (variant : gmap string jsval) :
  (generateCombinations rt p n).1 !! i = Some variant →
  p_options p ≠ [] →
  variant !! "parentProductId" = Some (JNum (p_id p))
  ∧ variant !! "parentProductName" = Some (JStr (p_name p))
  ∧ Forall (fun k => is_Some (variant !! k)) base_keys.
Proof.
  intros Hv Ho.
  destruct (Forall2_lookup_l _ _ _ _ _ (generateCombinations_paths rt p n) Hv)
    as (path & Hp & [k ->]).
  apply variant_of_path_base.
  intros ->. apply list_elem_of_lookup_2, lex_paths_choices in Hp.
  by inversion Hp.
Qed.

(** C5, on the failing input: the value of an extra property whose key
    has an upper-case letter is read under the lower-cased key, so the
    variant gets [undefined] in place of the value. *)
Theorem upper_case_key_is_lost (rt : Runtime) (n : nat) :
  (fun variant : gmap string jsval => variant !! "embossed")
    <$> (generateCombinations rt upper_case_key n).1
  = [Some JUndefined].
Proof. vm_compute. reflexivity. Qed.

(** The sibling case: an extra property whose key is an ASCII string
    already in lower case, and not [__proto__], of the value chosen for
    the last option, reaches the variant with its value. *)
Lemma lower_case_key_is_copied (rt : Runtime) (p : Product) (n i : nat)
    (variant : gmap string jsval) (pre : list choice) (o : ProductOption)
    (ov : OptionValue) (k : string) (x : jsval) :
  (generateCombinations rt p n).1 !! i = Some variant →
  lex_paths (p_options p) !! i = Some (pre ++ [(o, VObject ov)]) →
  ov_extra ov !! k = Some x →
  declared_key k = false →
  ascii_only k = true →
  toLowerCase k = k →
  k ≠ "__proto__" →
  variant !! k = Some x.
Proof.
  intros Hv Hp Hx Hd _ Hlow Hproto.
  destruct (generateCombinations_lookup rt p n i variant _ Hv Hp) as [u ->].
  unfold declared_key in Hd. rewrite !orb_false_iff, !bool_decide_eq_false in Hd.
  destruct Hd as [[Hname Hprice] Hdesc].
  rewrite variant_of_path_snoc, lookup_make_variant_copied.
  - unfold ov_get, js_get. rewrite !bool_decide_eq_false_2 by done. by rewrite Hx.
  - done.
  - rewrite copies_ov_keys, !(bool_decide_eq_true_2 (k ≠ _)) by done.
    rewrite (bool_decide_eq_true_2 (k ∈ _)); [by rewrite orb_true_r|].
    apply list_elem_of_fmap. exists k. split; [done|].
    unfold extra_keys. apply list_elem_of_filter. split.
    + unfold declared_key. by rewrite !bool_decide_eq_false_2.
    + apply list_elem_of_fmap. exists (k, x). split; [done|].
      by apply elem_of_map_to_list.
Qed.

(** C6, as stated, fails: of two options whose names are equal after
    lower-casing, the first has no field that holds one of its labels;
    the only variant has [Blue] under [color]. *)
Lemma option_field_counterexample :
  (fun o : ProductOption => (toLowerCase (po_name o), label_of <$> po_values o))
    <$> p_options same_name
  = [("color", ["Red"]); ("color", ["Blue"])]
  ∧ (fun variant : gmap string jsval => variant !! "color") <$> (generateCombinations rt0 same_name 0).1
    = [Some (JStr "Blue")].
Proof. split; vm_compute; reflexivity. Qed.

(** C6, amended. The names of the options, and the keys of the extra
    properties of the values chosen, being ASCII strings: for an option
    whose lower-cased name is not [id], [description], [price] or
    [__proto__], is not the lower-cased name of an option declared after
    it, and is not the lower-cased key of an extra property of the value
    chosen for it or for a later option, the variant holds, under that
    name, the label of the value chosen for the option, which is one of
    the option's values. *)
Theorem option_field_holds_label (rt : Runtime) (p : Product) (n i k : nat)
    (variant : gmap string jsval) (path : list choice) (o : ProductOption) :
  (generateCombinations rt p n).1 !! i = Some variant →
  lex_paths (p_options p) !! i = Some path →
  ascii_path path = true →
  p_options p !! k = Some o →
  toLowerCase (po_name o) ∉ ["id"; "description"; "price"; "__proto__"] →
  names_avoid (toLowerCase (po_name o)) (drop (S k) path) = true →
  extras_avoid (toLowerCase (po_name o)) (drop k path) = true →
  ∃ v, path !! k = Some (o, v)
       ∧ v ∈ po_values o
       ∧ variant !! toLowerCase (po_name o) = Some (JStr (label_of v)).
Proof.
  intros Hv Hp _ Ho Hj Hn Hx.
  destruct (generateCombinations_lookup rt p n i variant path Hv Hp) as [u ->].
  destruct (lex_paths_lookup_choice _ _ _ _ _ Hp Ho) as (v & Hk & Hin).
  exists v. split; [done|]. split; [done|].
  rewrite <- (take_drop_middle path k (o, v) Hk).
  rewrite (drop_S path (o, v) k Hk) in Hx.
  by apply variant_of_path_field.
Qed.

Lemma option_field_holds_label_witness :
  ∃ variant,
    (generateCombinations rt0 mockProduct 0).1 !! 2 = Some variant
    ∧ ∃ v, [(color, VString "Blue");
            (finish, override "360 wrap print" (Some 50%Z) (Some "Full wrap") [])] !! 0
           = Some (color, v)
           ∧ v ∈ po_values color
           ∧ variant !! "color" = Some (JStr (label_of v)).
Proof.
  eexists. split; [reflexivity|].
  exact (option_field_holds_label rt0 mockProduct 0 2 0 _
           [(color, VString "Blue");
            (finish, override "360 wrap print" (Some 50%Z) (Some "Full wrap") [])]
           color eq_refl eq_refl eq_refl eq_refl
           ltac:(apply (bool_decide_unpack _); exact I) eq_refl eq_refl).
Defined.

Section Relabel.

Variable rt : Runtime.
Variable p : Product.

Lemma foldl_make_variant_agree_off k path a b id :
  k ≠ "price" → k ≠ "description" →
  agree_off k a b →
  agree_off k
    (foldl (fun combination c => make_variant rt p c.1 combination c.2 id) a path)
    (foldl (fun combination c => make_variant rt p c.1 combination c.2 id) b path).
Proof.
  intros Hp Hd. revert a b. induction path as [|[o v] path IH]; intros a b H; simpl.
  - done.
  - by apply IH, make_variant_agree_off.
Qed.

(** Of two options with the same lower-cased name, the label chosen for
    the earlier one does not reach the variant. *)
Lemma variant_of_path_relabel pre o1 v1 mid o2 v2 post label id :
  toLowerCase (po_name o1) = toLowerCase (po_name o2) →
  toLowerCase (po_name o2) ≠ "price" →
  toLowerCase (po_name o2) ≠ "description" →
  toLowerCase (po_name o2) ≠ "__proto__" →
  variant_of_path rt p (pre ++ (o1, relabel v1 label) :: mid ++ (o2, v2) :: post) id
  = variant_of_path rt p (pre ++ (o1, v1) :: mid ++ (o2, v2) :: post) id.
Proof.
  intros Hj Hp Hd Hproto.
  rewrite !(variant_of_path_app rt p pre). simpl.
  rewrite !foldl_app. simpl. f_equal.
  apply make_variant_masks; [done..|].
  apply foldl_make_variant_agree_off; [done..|].
  rewrite <- Hj. intros j Hne. symmetry. revert j Hne.
  apply make_variant_relabel. by rewrite Hj.
Qed.

End Relabel.

(** C10, as stated, fails: the field under the shared name holds an
    extra property of the later option's value, not its label. *)
Lemma shared_name_counterexample :
  (fun o : ProductOption => (toLowerCase (po_name o), label_of <$> po_values o))
    <$> p_options same_name_and_key
  = [("color", ["Red"]); ("color", ["Blue"])]
  ∧ (fun variant : gmap string jsval => variant !! "color")
      <$> (generateCombinations rt0 same_name_and_key 0).1
    = [Some (JStr "navy")].
Proof. split; vm_compute; reflexivity. Qed.

(** C10, amended. The names of the options, and the keys of the extra
    properties of the values chosen, being ASCII strings: when two
    options have the same lower-cased name, the number of variants is
    still the product of the value counts, and, provided the shared name
    is not [id], [description], [price] or [__proto__], no option
    declared after the later of the two has that lower-cased name, and
    no extra property of the value chosen for the later option or for an
    option after it has that lower-cased key, the variant holds under
    the shared name the label chosen for the later option, and is, up to
    its identifier, the variant that any other label of the value chosen
    for the earlier option gives. *)
Theorem shared_name_later_option_wins (rt : Runtime) (p : Product) (n i k1 k2 : nat)
    (variant : gmap string jsval) (path : list choice) (o1 o2 : ProductOption) :
  (generateCombinations rt p n).1 !! i = Some variant →
  lex_paths (p_options p) !! i = Some path →
  ascii_path path = true →
  k1 < k2 →
  p_options p !! k1 = Some o1 →
  p_options p !! k2 = Some o2 →
  toLowerCase (po_name o1) = toLowerCase (po_name o2) →
  toLowerCase (po_name o2) ∉ ["id"; "description"; "price"; "__proto__"] →
  names_avoid (toLowerCase (po_name o2)) (drop (S k2) path) = true →
  extras_avoid (toLowerCase (po_name o2)) (drop k2 path) = true →
  length (generateCombinations rt p n).1
  = foldr Nat.mul 1 (value_counts (p_options p))
  ∧ ∃ v1 v2,
      path !! k1 = Some (o1, v1)
      ∧ path !! k2 = Some (o2, v2)
      ∧ variant !! toLowerCase (po_name o1) = Some (JStr (label_of v2))
      ∧ ∀ label,
          agree_off "id" variant
            (variant_of_path rt p (<[k1 := (o1, relabel v1 label)]> path) "").
Proof.
  intros Hv Hp _ Hk Ho1 Ho2 Hj Hb Hn Hx. split.
  { rewrite <- length_lex_paths.
    apply (Forall2_length _ _ _ (generateCombinations_paths rt p n)). }
  destruct (generateCombinations_lookup rt p n i variant path Hv Hp) as [u ->].
  destruct (lex_paths_lookup_choice _ _ _ _ _ Hp Ho1) as (v1 & Hk1 & _).
  destruct (lex_paths_lookup_choice _ _ _ _ _ Hp Ho2) as (v2 & Hk2 & _).
  exists v1, v2. split; [done|]. split; [done|]. split.
  - rewrite Hj. rewrite <- (take_drop_middle path k2 (o2, v2) Hk2).
    rewrite (drop_S path (o2, v2) k2 Hk2) in Hx.
    by apply variant_of_path_field.
  - intros label.
    assert (∃ pre mid post, path = pre ++ (o1, v1) :: mid ++ (o2, v2) :: post
                            ∧ length pre = k1) as (pre & mid & post & Hpath & Hlen).
    { exists (take k1 path), (take (k2 - S k1) (drop (S k1) path)),
        (drop (S k2) path). split.
      - rewrite <- (take_drop_middle path k1 (o1, v1) Hk1) at 1. do 2 f_equal.
        assert (drop (S k1) path !! (k2 - S k1) = Some (o2, v2)) as Hd.
        { rewrite lookup_drop. rewrite <- Hk2. f_equal. lia. }
        rewrite <- (take_drop_middle _ _ _ Hd) at 1. do 2 f_equal.
        rewrite drop_drop. f_equal. lia.
      - apply length_take_le. apply lookup_lt_Some in Hk1. lia. }
    rewrite Hpath. rewrite <- Hlen.
    rewrite <- (Nat.add_0_r (length pre)), insert_app_r. simpl.
    assert (toLowerCase (po_name o2) ≠ "price"
            ∧ toLowerCase (po_name o2) ≠ "description"
            ∧ toLowerCase (po_name o2) ≠ "__proto__") as (Hpr & Hde & Hproto).
    { rewrite !not_elem_of_cons in Hb. tauto. }
    rewrite variant_of_path_relabel by done.
    apply variant_of_path_id.
Qed.

Lemma shared_name_later_option_wins_witness :
  ∃ variant,
    (generateCombinations rt0 same_name 0).1 !! 0 = Some variant
    ∧ length (generateCombinations rt0 same_name 0).1 = 1
    ∧ ∃ v1 v2,
        [({| po_name := "Color"; po_values := [VString "Red"] |}, VString "Red");
         ({| po_name := "color"; po_values := [VString "Blue"] |}, VString "Blue")] !! 0
        = Some ({| po_name := "Color"; po_values := [VString "Red"] |}, v1)
        ∧ [({| po_name := "Color"; po_values := [VString "Red"] |}, VString "Red");
           ({| po_name := "color"; po_values := [VString "Blue"] |}, VString "Blue")] !! 1
          = Some ({| po_name := "color"; po_values := [VString "Blue"] |}, v2)
        ∧ variant !! "color" = Some (JStr (label_of v2))
        ∧ ∀ label,
            agree_off "id" variant
              (variant_of_path rt0 same_name
                 (<[0 := ({| po_name := "Color"; po_values := [VString "Red"] |},
                          relabel v1 label)]>
                    [({| po_name := "Color"; po_values := [VString "Red"] |},
                      VString "Red");
                     ({| po_name := "color"; po_values := [VString "Blue"] |},
                      VString "Blue")])
                 "").
Proof.
  eexists. split; [reflexivity|].
  exact (shared_name_later_option_wins rt0 same_name 0 0 0 1 _
           [({| po_name := "Color"; po_values := [VString "Red"] |}, VString "Red");
            ({| po_name := "color"; po_values := [VString "Blue"] |}, VString "Blue")]
           {| po_name := "Color"; po_values := [VString "Red"] |}
           {| po_name := "color"; po_values := [VString "Blue"] |}
           eq_refl eq_refl eq_refl ltac:(lia) eq_refl eq_refl eq_refl
           ltac:(apply (bool_decide_unpack _); exact I) eq_refl eq_refl).
Defined.

(** C7, as stated, fails: the second variant chose [Matte], another
    value of the option than the one that carries [embossed], and still
    has the property, from the value of another option. *)
Lemma extra_attribute_counterexample :
  (fun path : list choice =>
     (fun c : choice => (label_of c.2, carries_extra c.2 "embossed")) <$> path)
    <$> lex_paths (p_options shared_extra)
  = [[("Gloss", true); ("Foil", true)]; [("Matte", false); ("Foil", true)]]
  ∧ (fun variant : gmap string jsval => variant !! "embossed")
      <$> (generateCombinations rt0 shared_extra 0).1
    = [Some (JBool true); Some (JBool true)].
Proof. split; vm_compute; reflexivity. Qed.

(** C7, amended. The names of the options, and the keys of the extra
    properties of the values chosen, being ASCII strings: an extra
    property, under a lower-case key other than [name], [price],
    [description], [id] and [__proto__], of a value on the path of a
    variant is a property of the variant, with the value it has there,
    provided no option declared afterwards has the key as its lower-cased
    name or has it as the lower-cased key of an extra property of its
    chosen value; and a key that is not a base property, not the
    lower-cased name of an option, and not the lower-cased key of an
    extra property of any value on the path is missing from the
    variant. *)
Theorem extra_attribute_presence (rt : Runtime) (p : Product) (n i : nat)
    (variant : gmap string jsval) (path : list choice) (j : string) :
  (generateCombinations rt p n).1 !! i = Some variant →
  lex_paths (p_options p) !! i = Some path →
  ascii_path path = true →
  (∀ k o ov x,
     path !! k = Some (o, VObject ov) →
     ov_extra ov !! j = Some x →
     declared_key j = false →
     toLowerCase j = j →
     j ∉ ["id"; "__proto__"] →
     names_avoid j (drop (S k) path) = true →
     extras_avoid j (drop (S k) path) = true →
     variant !! j = Some x)
  ∧ (j ∉ base_keys → names_avoid j path = true → extras_avoid j path = true →
     variant !! j = None).
Proof.
  intros Hv Hp _.
  destruct (generateCombinations_lookup rt p n i variant path Hv Hp) as [u ->].
  split.
  - intros k o ov x Hk Hx Hd Hlow Hj Hn He.
    rewrite <- (take_drop_middle path k _ Hk).
    rewrite !not_elem_of_cons in Hj. destruct Hj as (Hid & Hproto & _).
    by apply variant_of_path_copied.
  - by apply variant_of_path_absent.
Qed.

Lemma extra_attribute_presence_witness :
  ∃ with_gloss with_matte,
    (generateCombinations rt0 (with_options [embossed_finish; color]) 0).1 !! 0
    = Some with_gloss
    ∧ (generateCombinations rt0 (with_options [embossed_finish; color]) 0).1 !! 2
      = Some with_matte
    ∧ with_gloss !! "embossed" = Some (JBool true)
    ∧ with_matte !! "embossed" = None.
Proof.
  eexists _, _. split; [reflexivity|]. split; [reflexivity|]. split.
  - refine (proj1 (extra_attribute_presence rt0 (with_options [embossed_finish; color])
              0 0 _ [(embossed_finish,
                      override "360 wrap print" (Some 50%Z) (Some "Full wrap")
                        [("embossed", JBool true)]);
                     (color, VString "Red")]
              "embossed" eq_refl eq_refl eq_refl)
            0 embossed_finish _ (JBool true) eq_refl eq_refl eq_refl eq_refl _
            eq_refl eq_refl).
    apply (bool_decide_unpack _). exact I.
  - exact (proj2 (extra_attribute_presence rt0 (with_options [embossed_finish; color])
              0 2 _ [(embossed_finish,
                      override "One-sided printing" (Some 45%Z) (Some "One side") []);
                     (color, VString "Red")]
              "embossed" eq_refl eq_refl eq_refl)
            ltac:(apply (bool_decide_unpack _); exact I) eq_refl eq_refl).
Defined.

(** ** main *)

Lemma main_try_events (rt : Runtime) (w : World) (e : event) :
  e ∈ (main_try rt w).1 →
  (∃ path content, e = FileWritten path content)
  ∨ (∃ count, e = ConsoleInfo (success_message count (outputFile w))).
Proof.
  unfold main_try.
  destruct (readFileSync w _) as [text|err]; [|by intros ?%elem_of_nil].
  destruct (JSON_parse w text) as [products|err]; [|by intros ?%elem_of_nil].
  cbv zeta. destruct (writeFileSync w _ _) as [|err|err partial]; cbn [fst].
  - intros [->|[->|[]%elem_of_nil]%elem_of_cons]%elem_of_cons; eauto.
  - by intros ?%elem_of_nil.
  - intros [->|[]%elem_of_nil]%elem_of_cons; eauto.
Qed.

(** The files of a run are those of the [try] block. *)
Lemma main_files (rt : Runtime) (manual : string) (w : World) (path content : string) :
  argv_help w = false →
  FileWritten path content ∈ (main rt manual w).1
  ↔ FileWritten path content ∈ (main_try rt w).1.
Proof.
  intros Hhelp. unfold main. rewrite Hhelp. cbn [fst]. unfold main_catch.
  rewrite elem_of_app. split.
  - intros [Hin|Hin].
    + destruct (_ || _); [|by apply elem_of_nil in Hin].
      apply list_elem_of_singleton in Hin. discriminate Hin.
    + destruct (main_try rt w).2; [done|]. cbn [fst] in Hin.
      apply elem_of_app in Hin as [Hin|Hin]; [done|].
      apply list_elem_of_singleton in Hin. discriminate Hin.
  - intros Hin. right. destruct (main_try rt w).2; [done|]. cbn [fst].
    apply elem_of_app. by left.
Qed.

(** No exception leaves [main]. *)
Lemma main_returns (rt : Runtime) (manual : string) (w : World) :
  argv_help w = false → (main rt manual w).2 = Returned.
Proof.
  intros Hhelp. unfold main. rewrite Hhelp. cbn [snd]. unfold main_catch.
  by destruct (main_try rt w) as [events [[]|err]].
Qed.

(** A run that fails logs an error message. *)
Lemma main_failure_message (rt : Runtime) (manual : string) (w : World) :
  argv_help w = false →
  failure rt w →
  ∃ message, ConsoleError message ∈ (main rt manual w).1
             ∧ (message = config_message ∨ ∃ err, message = failure_message err).
Proof.
  intros Hhelp Hf. unfold main. rewrite Hhelp. cbn [fst].
  assert (∀ err, (main_try rt w).2 = Throw err →
            ∃ message,
              ConsoleError message
                ∈ (if js_not (INPUT_FILE_PATH w) || js_not (OUTPUT_DIR w)
                   then [ConsoleError config_message] else [])
                  ++ (main_catch (main_try rt w)).1
              ∧ (message = config_message ∨ ∃ err, message = failure_message err))
    as Hthrow.
  { intros err Hthrow. exists (failure_message err). split; [|eauto].
    unfold main_catch. rewrite Hthrow. cbn [fst].
    rewrite !elem_of_app. right. right. apply list_elem_of_here. }
  destruct Hf as [Hc|err Hr|text err Hr Hp|products (text & Hr & Hp) Hw].
  - exists config_message. split; [|by left]. apply elem_of_app. left.
    destruct Hc as [-> | ->]; rewrite ?orb_true_r; apply list_elem_of_here.
  - apply (Hthrow err). unfold main_try. by rewrite Hr.
  - apply (Hthrow err). unfold main_try. by rewrite Hr, Hp.
  - unfold output_written in Hw.
    destruct (writeFileSync w (outputFile w)
                (JSON_stringify w (productVariants rt products)))
      as [|err|err partial] eqn:E; [done| |];
      apply (Hthrow err); unfold main_try; by rewrite Hr, Hp, E.
Qed.

(** A run in which nothing fails writes the output and reports it. *)
Lemma main_success (rt : Runtime) (manual : string) (w : World) :
  argv_help w = false →
  ¬ failure rt w →
  ∃ products,
    input_read w products
    ∧ (main rt manual w).1
      = [FileWritten (outputFile w) (JSON_stringify w (productVariants rt products));
         ConsoleInfo (success_message (length (productVariants rt products))
                                      (outputFile w))].
Proof.
  intros Hhelp Hnf. unfold main. rewrite Hhelp. cbn [fst].
  assert (js_not (INPUT_FILE_PATH w) || js_not (OUTPUT_DIR w) = false) as ->.
  { apply not_true_is_false. intros Hc%orb_true_iff. by apply Hnf, fail_config. }
  unfold main_catch, main_try.
  destruct (readFileSync w (INPUT_FILE_PATH w)) as [text|err] eqn:Hr;
    [|destruct Hnf; by eapply fail_read].
  destruct (JSON_parse w text) as [products|err] eqn:Hp;
    [|destruct Hnf; by eapply fail_parse].
  exists products. split; [by exists text|]. cbv zeta.
  destruct (writeFileSync w _ _) as [|err|err partial] eqn:E; [done| |];
    destruct Hnf; apply (fail_write rt w products); try (by exists text);
    unfold output_written; by rewrite E.
Qed.

(** What a run leaves in a file: the whole output, or what a failed
    write has left. *)
Lemma main_try_files (rt : Runtime) (w : World) (path content : string) :
  FileWritten path content ∈ (main_try rt w).1 →
  complete_output rt w path content ∨ cut_output rt w path content.
Proof.
  unfold main_try.
  destruct (readFileSync w _) as [text|err] eqn:Hr; [|by intros ?%elem_of_nil].
  destruct (JSON_parse w text) as [products|err] eqn:Hp; [|by intros ?%elem_of_nil].
  cbv zeta. destruct (writeFileSync w _ _) as [|err|err partial] eqn:E; cbn [fst].
  - intros [Hin|[Hin|[]%elem_of_nil]%elem_of_cons]%elem_of_cons; [|discriminate Hin].
    injection Hin as -> ->. left. exists products. split; [by exists text|done].
  - by intros ?%elem_of_nil.
  - intros [Hin|[]%elem_of_nil]%elem_of_cons. injection Hin as -> ->.
    right. exists products, err. split; [by exists text|]. split; [done|].
    exact E.
Qed.

Lemma input_read_unique (w : World) (products1 products2 : list Product) :
  input_read w products1 → input_read w products2 → products1 = products2.
Proof. intros (t1 & Hr1 & Hp1) (t2 & Hr2 & Hp2). congruence. Qed.

(** A run that stops before it writes leaves no file. *)
Lemma main_try_no_file (rt : Runtime) (w : World) :
  stops_before_writing rt w → (main_try rt w).1 = [].
Proof.
  unfold main_try.
  intros [(err & Hr)|[(text & err & Hr & Hp)|(products & err & (text & Hr & Hp) & Hw)]].
  - by rewrite Hr.
  - by rewrite Hr, Hp.
  - unfold output_written in Hw. rewrite Hr, Hp. cbv zeta. by rewrite Hw.
Qed.

(** C9, as stated, fails: when the disk is full once the first character
    is written, the run logs the error and returns, and leaves the
    output file holding [[], where the whole output is [[]]. *)
Lemma partial_output_counterexample :
  main rt0 "" disk_full
  = ([FileWritten "./results/generated-variants-with-base-data.json" "[";
      ConsoleError
        (failure_message "Error: ENOSPC: no space left on device, write")],
     Returned)
  ∧ JSON_stringify disk_full (productVariants rt0 []) = "[]".
Proof. split; vm_compute; reflexivity. Qed.

(** C9, amended. A request for help prints the manual and ends the
    process.  Any other run returns, whatever fails: no exception leaves
    [main].  When nothing fails it writes the serialisation of all the
    variants of the catalogue to the output file and then logs the
    number of variants and the path of the file.  When something fails
    (an input path or output directory that is falsy: the empty string,
    the number 0 or [false]; an input file that cannot be read or
    parsed; an output file that cannot be written) it logs an error
    message.  A run that stops on its input, or because the output file
    cannot be opened, leaves no file; a file that a run leaves holds the
    whole serialisation, or what a write that failed has left of it. *)
Theorem main_reports (rt : Runtime) (manual : string) (w : World) :
  (argv_help w = true → main rt manual w = ([ConsoleInfo manual], Exited))
  ∧ (argv_help w = false →
     (main rt manual w).2 = Returned
     ∧ (failure rt w →
        ∃ message,
          ConsoleError message ∈ (main rt manual w).1
          ∧ (message = config_message ∨ ∃ err, message = failure_message err))
     ∧ (¬ failure rt w →
        ∃ products,
          input_read w products
          ∧ (main rt manual w).1
            = [FileWritten (outputFile w)
                 (JSON_stringify w (productVariants rt products));
               ConsoleInfo (success_message (length (productVariants rt products))
                                            (outputFile w))])
     ∧ (stops_before_writing rt w →
        ∀ path content, FileWritten path content ∉ (main rt manual w).1)
     ∧ (∀ path content, FileWritten path content ∈ (main rt manual w).1 →
          complete_output rt w path content ∨ cut_output rt w path content)).
Proof.
  split.
  - intros Hhelp. unfold main. by rewrite Hhelp.
  - intros Hhelp. split; [by apply main_returns|].
    split; [by apply main_failure_message|].
    split; [by apply main_success|]. split.
    + intros Hs path content Hin%main_files; [|done].
      rewrite (main_try_no_file rt w Hs) in Hin. by apply elem_of_nil in Hin.
    + intros path content Hin%main_files; [|done]. by apply main_try_files.
Qed.

Lemma main_reports_witness :
  (main rt0 "" empty_catalogue).2 = Returned
  ∧ (∃ products,
       input_read empty_catalogue products
       ∧ (main rt0 "" empty_catalogue).1
         = [FileWritten (outputFile empty_catalogue)
              (JSON_stringify empty_catalogue (productVariants rt0 products));
            ConsoleInfo (success_message (length (productVariants rt0 products))
                                         (outputFile empty_catalogue))])
  ∧ (∃ message, ConsoleError message ∈ (main rt0 "" missing_input).1)
  ∧ (∀ path content, FileWritten path content ∉ (main rt0 "" missing_input).1)
  ∧ (∃ message, ConsoleError message ∈ (main rt0 "" zero_out).1).
Proof.
  destruct (proj2 (main_reports rt0 "" empty_catalogue) eq_refl)
    as (Hret & _ & Hok & _).
  destruct (proj2 (main_reports rt0 "" missing_input) eq_refl)
    as (_ & Hfail & _ & Hstop & _).
  destruct (proj2 (main_reports rt0 "" zero_out) eq_refl)
    as (_ & Hzero & _).
  split; [exact Hret|]. split; [|split; [|split]].
  - apply Hok.
    intros [[H|H]|err H|text err _ H|products (text & _ & H) Hw].
    + discriminate H.
    + discriminate H.
    + discriminate H.
    + discriminate H.
    + by apply Hw.
  - destruct Hfail as (message & Hin & _).
    + by eapply (fail_read rt0 missing_input).
    + by exists message.
  - apply Hstop. left. by eexists.
  - destruct Hzero as (message & Hin & _).
    + apply fail_config. by right.
    + by exists message.
Defined.

(** * Further properties of the code *)

(** ** The identifiers *)

Lemma expand_option_state (rt : Runtime) (p : Product) (o : ProductOption)
    (combinations : list (gmap string jsval)) (m : nat) :
  (expand_option rt p combinations o m).2
  = m + length combinations * length (po_values o)
  ∧ length (expand_option rt p combinations o m).1
    = length combinations * length (po_values o).
Proof.
  revert m. induction combinations as [|c cs IH]; intros m.
  - split; [simpl; lia|done].
  - unfold expand_option in *. rewrite flatMapG_cons. cbn [fst snd].
    rewrite (mapG_fresh rt (make_variant rt p o c)). cbn [fst snd].
    destruct (IH (m + length (po_values o))) as [-> IHl].
    rewrite length_app, length_imap, IHl. simpl. split; lia.
Qed.

Lemma uuid_calls_snoc (m : nat) (counts : list nat) (c : nat) :
  uuid_calls m (counts ++ [c])
  = uuid_calls m counts + m * variant_count counts * c.
Proof.
  revert m. induction counts as [|c' counts IH]; intros m; simpl.
  - unfold variant_count. simpl. lia.
  - rewrite IH. unfold variant_count. simpl. lia.
Qed.

Lemma variant_count_snoc (counts : list nat) (c : nat) :
  variant_count (counts ++ [c]) = variant_count counts * c.
Proof.
  unfold variant_count. induction counts as [|c' counts IH]; simpl; [lia|].
  rewrite IH. lia.
Qed.

(** Extending every path built so far by a choice of the next option,
    with the exact identifiers. *)
Lemma expand_option_exact (rt : Runtime) (p : Product) (o : ProductOption)
    (combinations : list (gmap string jsval)) (paths : list (list choice)) :
  Forall2 (built_along rt p) combinations paths →
  ∀ m, (expand_option rt p combinations o m).1
       = imap (fun i path => variant_of_path rt p path (randomUUID rt (m + i)))
              (paths ≫= (fun path => (fun v => path ++ [(o, v)]) <$> po_values o)).
Proof.
  induction 1 as [|c path cs paths [k ->] _ IH]; intros m; [done|].
  rewrite expand_option_cons, bind_cons, imap_app, imap_fmap, IH.
  rewrite length_fmap. f_equal.
  - apply imap_ext. intros i v _. simpl. apply make_variant_of_path.
  - apply imap_ext. intros i path' _. simpl. do 2 f_equal. lia.
Qed.

Lemma reduce_paths (rt : Runtime) (p : Product) (options : list ProductOption)
    (n : nat) :
  Forall2 (built_along rt p)
    (reduceG (expand_option rt p) options [∅] n).1 (lex_paths options).
Proof.
  induction options as [|o options IH] using rev_ind; simpl.
  - repeat constructor. by exists 0.
  - rewrite reduceG_app, lex_paths_snoc. simpl. unfold gen_bind.
    destruct (reduceG _ options _ n) as [combinations n'] eqn:E. simpl in *.
    pose proof (expand_option_paths rt p o combinations _ IH n') as H.
    destruct (expand_option rt p combinations o n') as [cs n'']. exact H.
Qed.

Lemma reduce_exact (rt : Runtime) (p : Product) (options : list ProductOption)
    (n : nat) :
  reduceG (expand_option rt p) options [∅] n
  = (imap (fun i path =>
             variant_of_path rt p path (randomUUID rt (id_position options n i)))
          (lex_paths options),
     n + uuid_calls 1 (value_counts options)).
Proof.
  unfold id_position.
  induction options as [|o options IH] using rev_ind.
  - simpl. unfold gen_ret. f_equal. lia.
  - rewrite reduceG_app. simpl. unfold gen_bind.
    pose proof (reduce_paths rt p options n) as Hpaths.
    rewrite IH in *. cbn [fst snd] in *.
    match type of Hpaths with Forall2 _ ?l _ => set (combinations := l) in * end.
    assert (length combinations = length (lex_paths options)) as Hlen
      by apply length_imap.
    pose proof (expand_option_state rt p o combinations
                  (n + uuid_calls 1 (value_counts options))) as [Hstate _].
    pose proof (expand_option_exact rt p o combinations _ Hpaths
                  (n + uuid_calls 1 (value_counts options))) as Hexact.
    destruct (expand_option rt p combinations o _) as [variants n'].
    cbn [fst snd] in *. subst variants n'. rewrite lex_paths_snoc.
    unfold value_counts. rewrite fmap_app. simpl.
    rewrite uuid_calls_snoc, variant_count_snoc.
    rewrite Hlen, length_lex_paths. fold (variant_count (value_counts options)).
    unfold value_counts. f_equal; [|lia].
    apply imap_ext. intros i path _. simpl. do 2 f_equal. lia.
Qed.

(** X1. [generateCombinations] is the nested iteration over the options:
    the variant at position [i] is the one built along the [i]-th path,
    with the identifier that the supply gives at [id_position]; and the
    run draws [uuid_calls] identifiers. *)
Theorem generateCombinations_exact (rt : Runtime) (p : Product) (n : nat) :
  generateCombinations rt p n
  = (imap (fun i path =>
             variant_of_path rt p path (randomUUID rt (id_position (p_options p) n i)))
          (lex_paths (p_options p)),
     n + uuid_calls 1 (value_counts (p_options p))).
Proof. apply reduce_exact. Qed.

Section Ids.

Variable rt : Runtime.
Variable p : Product.

Lemma lookup_base_fields_id c id : base_fields p c id !! "id" = Some (JStr id).
Proof.
  unfold base_fields. do 4 rewrite lookup_insert_ne by done.
  by rewrite lookup_insert_eq.
Qed.

(** The identifier given to the last step is the variant's [id], unless
    that step writes the key [id] itself. *)
Lemma variant_of_path_last_id pre o v id :
  toLowerCase (po_name o) ≠ "id" →
  carries_extra v "id" = false →
  variant_of_path rt p (pre ++ [(o, v)]) id !! "id" = Some (JStr id).
Proof.
  intros Hn Hx. rewrite variant_of_path_snoc.
  assert (copied_by v "id" = false) as Hc by by apply copied_by_extra.
  unfold make_variant. destruct v as [label|ov].
  - rewrite own_js_set_ne by done. apply lookup_base_fields_id.
  - simpl in Hc. rewrite own_copy_keys_other, own_update_price_ne by done.
    rewrite own_js_set_ne by done. apply lookup_base_fields_id.
Qed.

End Ids.

Lemma lex_paths_last (options : list ProductOption) (o : ProductOption)
    (path : list choice) :
  path ∈ lex_paths (options ++ [o]) →
  ∃ pre v, path = pre ++ [(o, v)] ∧ v ∈ po_values o.
Proof.
  rewrite lex_paths_snoc.
  intros (pre & (v & -> & Hv)%list_elem_of_fmap & _)%list_elem_of_bind. eauto.
Qed.

Lemma lookup_variant_id (rt : Runtime) (p : Product) (n i : nat)
    (variant : gmap string jsval) (options : list ProductOption) (o : ProductOption) :
  p_options p = options ++ [o] →
  toLowerCase (po_name o) ≠ "id" →
  forallb (fun v => negb (carries_extra v "id")) (po_values o) = true →
  (generateCombinations rt p n).1 !! i = Some variant →
  variant !! "id" = Some (JStr (randomUUID rt (id_position (p_options p) n i))).
Proof.
  intros Ho Hn Hx Hv. unfold generateCombinations in Hv. rewrite reduce_exact in Hv. cbn [fst] in Hv.
  rewrite list_lookup_imap in Hv.
  destruct (lex_paths (p_options p) !! i) as [path|] eqn:Hp; [|done].
  injection Hv as <-.
  apply list_elem_of_lookup_2 in Hp. rewrite Ho in Hp.
  apply lex_paths_last in Hp as (pre & v & -> & Hin).
  apply variant_of_path_last_id; [done|].
  rewrite forallb_forall in Hx. apply negb_true_iff, Hx. by apply list_elem_of_In.
Qed.

(** X2. The [id] of the variant at position [i] is the identifier that the
    supply gives at [id_position]: the identifiers of the last step, in
    the order of the variants; this holds unless the last option is
    named [id] or one of its values has an extra property [id]. *)
Theorem variant_id_position (rt : Runtime) (p : Product) (n i : nat)
    (variant : gmap string jsval) (options : list ProductOption) (o : ProductOption) :
  p_options p = options ++ [o] →
  toLowerCase (po_name o) ≠ "id" →
  forallb (fun v => negb (carries_extra v "id")) (po_values o) = true →
  (generateCombinations rt p n).1 !! i = Some variant →
  variant !! "id" = Some (JStr (randomUUID rt (id_position (p_options p) n i))).
Proof. apply lookup_variant_id. Qed.

(** X3. When the supply never repeats an identifier, no two variants of a
    product have the same [id]. *)
Theorem variant_ids_distinct (rt : Runtime) (p : Product) (n i j : nat)
    (a b : gmap string jsval) (options : list ProductOption) (o : ProductOption) :
  (∀ k l, randomUUID rt k = randomUUID rt l → k = l) →
  p_options p = options ++ [o] →
  toLowerCase (po_name o) ≠ "id" →
  forallb (fun v => negb (carries_extra v "id")) (po_values o) = true →
  (generateCombinations rt p n).1 !! i = Some a →
  (generateCombinations rt p n).1 !! j = Some b →
  a !! "id" = b !! "id" →
  i = j.
Proof.
  intros Hinj Ho Hn Hx Ha Hb Hid.
  rewrite (lookup_variant_id rt p n i a options o Ho Hn Hx Ha) in Hid.
  rewrite (lookup_variant_id rt p n j b options o Ho Hn Hx Hb) in Hid.
  injection Hid as Hid. apply Hinj in Hid. unfold id_position in Hid. lia.
Qed.

Lemma rt0_never_repeats (k l : nat) : randomUUID rt0 k = randomUUID rt0 l → k = l.
Proof. simpl. intros H. injection H as H. by apply (inj pretty). Qed.

(** ** The keys of a variant *)

Section Keys.

Variable rt : Runtime.
Variable p : Product.

Lemma written_on_snoc path o v j :
  written_on (path ++ [(o, v)]) j
  = written_on path j || bool_decide (toLowerCase (po_name o) = j) || copied_by v j.
Proof.
  unfold written_on. rewrite existsb_app. simpl. by rewrite orb_false_r, orb_assoc.
Qed.

(** A step binds the key of its option. *)
Lemma make_variant_binds_field o c v id :
  toLowerCase (po_name o) ≠ "__proto__" →
  is_Some (make_variant rt p o c v id !! toLowerCase (po_name o)).
Proof.
  intros Hproto. unfold make_variant. destruct v as [label|ov].
  - by rewrite own_js_set_eq.
  - apply copy_keys_is_Some, update_price_is_Some. by rewrite own_js_set_eq.
Qed.

Lemma make_variant_binds_copied o c v id j :
  j ≠ "__proto__" →
  copied_by v j = true → is_Some (make_variant rt p o c v id !! j).
Proof.
  intros Hproto Hc. destruct v as [label|ov]; [done|]. simpl in Hc.
  by rewrite lookup_make_variant_copied.
Qed.

Lemma variant_of_path_written path id j :
  j ≠ "__proto__" →
  written_on path j = true → is_Some (variant_of_path rt p path id !! j).
Proof.
  intros Hproto. induction path as [|[o v] path IH] using rev_ind; [done|].
  rewrite written_on_snoc, variant_of_path_snoc, !orb_true_iff.
  intros [[Hw|Hn]|Hc].
  - by apply make_variant_is_Some, IH.
  - apply bool_decide_eq_true in Hn. subst j. by apply make_variant_binds_field.
  - by apply make_variant_binds_copied.
Qed.

Lemma variant_of_path_unwritten path id j :
  j ∉ base_keys → written_on path j = false →
  variant_of_path rt p path id !! j = None.
Proof.
  intros Hb. induction path as [|[o v] path IH] using rev_ind; [done|].
  rewrite written_on_snoc, variant_of_path_snoc, !orb_false_iff.
  intros [[Hw Hn] Hc]. apply bool_decide_eq_false in Hn.
  rewrite lookup_make_variant_other by done. by apply IH.
Qed.

Lemma variant_of_path_keys path id j :
  path ≠ [] →
  j ≠ "__proto__" →
  is_Some (variant_of_path rt p path id !! j)
  ↔ j ∈ base_keys ∨ written_on path j = true.
Proof.
  intros Hne Hproto. split.
  - intros Hs. destruct (decide (j ∈ base_keys)) as [|Hb]; [by left|]. right.
    destruct (written_on path j) eqn:Hw; [done|].
    rewrite (variant_of_path_unwritten path id j Hb Hw) in Hs. by destruct Hs.
  - intros [Hb|Hw].
    + destruct (variant_of_path_base rt p path id Hne) as (_ & _ & Hall).
      rewrite Forall_forall in Hall. by apply Hall.
    + by apply variant_of_path_written.
Qed.

End Keys.

(** X5. The names of the options, and the keys of the extra properties
    of the values chosen, being ASCII strings: the properties of a
    variant of a product with at least one option are, the key
    [__proto__] left aside, the five base properties, a field for every
    option, and the properties copied from the object values on its
    path; it has no other property. *)
Theorem variant_keys (rt : Runtime) (p : Product) (n i : nat)
    (variant : gmap string jsval) (path : list choice) (j : string) :
  (generateCombinations rt p n).1 !! i = Some variant →
  lex_paths (p_options p) !! i = Some path →
  ascii_path path = true →
  p_options p ≠ [] →
  j ≠ "__proto__" →
  is_Some (variant !! j) ↔ j ∈ base_keys ∨ written_on path j = true.
Proof.
  intros Hv Hp _ Ho Hproto.
  destruct (generateCombinations_lookup rt p n i variant path Hv Hp) as [k ->].
  apply variant_of_path_keys; [|done].
  intros ->. apply list_elem_of_lookup_2, lex_paths_choices in Hp.
  by inversion Hp.
Qed.

(** ** A bare label and an object with only a name *)

Lemma mapG_ext {A B} (f g : A -> Gen B) (xs : list A) (n : nat) :
  (∀ x m, f x m = g x m) → mapG f xs n = mapG g xs n.
Proof.
  intros H. revert n. induction xs as [|x xs IH]; intros n; simpl; [done|].
  unfold gen_bind. rewrite H. destruct (g x n) as [y n']. by rewrite IH.
Qed.

Lemma mapG_fmap {A B C} (f : B -> Gen C) (g : A -> B) (xs : list A) (n : nat) :
  mapG f (g <$> xs) n = mapG (fun x => f (g x)) xs n.
Proof.
  revert n. induction xs as [|x xs IH]; intros n; simpl; [done|].
  unfold gen_bind. destruct (f (g x) n) as [y n']. by rewrite IH.
Qed.

Lemma reduceG_ext {A B} (f g : B -> A -> Gen B) (xs : list A) (acc : B) (n : nat) :
  (∀ b x m, f b x m = g b x m) → reduceG f xs acc n = reduceG g xs acc n.
Proof.
  intros H. revert acc n. induction xs as [|x xs IH]; intros acc n; simpl; [done|].
  unfold gen_bind. rewrite H. destruct (g acc x n) as [acc' n']. apply IH.
Qed.

Lemma reduceG_fmap {A B C} (f : C -> B -> Gen C) (g : A -> B) (xs : list A)
    (acc : C) (n : nat) :
  reduceG f (g <$> xs) acc n = reduceG (fun c x => f c (g x)) xs acc n.
Proof.
  revert acc n. induction xs as [|x xs IH]; intros acc n; simpl; [done|].
  unfold gen_bind. destruct (f acc (g x) n) as [acc' n']. apply IH.
Qed.

Lemma make_variant_objectify (rt : Runtime) (p : Product) (o : ProductOption)
    (c : gmap string jsval) (v : Value) (id : string) :
  make_variant rt (objectify_product p) (objectify_option o) c (objectify v) id
  = make_variant rt p o c v id.
Proof.
  destruct v as [label|ov]; [|done].
  unfold make_variant, objectify. cbn [ov_name objectify_option po_name].
  change (base_fields (objectify_product p) c id) with (base_fields p c id).
  set (variant := js_set (literal (base_fields p c id))
                    (toLowerCase (po_name o)) (JStr label)).
  assert (ov_keys {| ov_name := label; ov_price := None; ov_description := None;
                     ov_extra := ∅ |} = ["name"]) as -> by done.
  cbn [foldl]. unfold copy_key.
  change (toLowerCase "name") with "name".
  case_bool_decide; [|done]. cbn [orb].
  unfold update_price. cbn [ov_price js_gt price_val]. rewrite orb_false_r.
  destruct (is_undefined (js_get (own variant) "price")) eqn:Hu; [|done].
  rewrite js_set_ordinary by done. cbn [own].
  apply insert_id. unfold variant in *. unfold js_get in Hu.
  destruct (decide (toLowerCase (po_name o) = "price")) as [Heq|Hne].
  - rewrite Heq, own_js_set_eq in Hu; done.
  - rewrite own_js_set_ne in * by done. cbn [literal own] in *.
    rewrite lookup_base_fields_price in *.
    by destruct (js_get c "price").
Qed.

(** X6. Writing a bare label as an object that has only this [name] changes
    nothing: the product has the same variants, with the same
    identifiers. *)
Theorem generateCombinations_objectify (rt : Runtime) (p : Product) (n : nat) :
  generateCombinations rt (objectify_product p) n = generateCombinations rt p n.
Proof.
  unfold generateCombinations. cbn [objectify_product p_options].
  rewrite reduceG_fmap. apply reduceG_ext. intros combinations o m.
  unfold expand_option, flatMapG, gen_bind.
  rewrite (mapG_ext _
    (fun combination =>
       mapG (fun value => let* id := fresh rt in
                          gen_ret (make_variant rt p o combination value id))
            (po_values o))); [done|].
  intros c k. cbn [objectify_option po_values]. rewrite mapG_fmap.
  apply mapG_ext. intros v l. unfold gen_bind, fresh, gen_ret.
  by rewrite make_variant_objectify.
Qed.

(** ** The catalogue *)

Lemma flatMap_products (rt : Runtime) (products : list Product) (n : nat) :
  Forall2 (fun variant pp => built_along rt pp.1 variant pp.2)
    (flatMapG (generateCombinations rt) products n).1 (catalogue_paths products)
  ∧ (flatMapG (generateCombinations rt) products n).2
    = n + sum_list ((fun p => uuid_calls 1 (value_counts (p_options p))) <$> products).
Proof.
  revert n. induction products as [|p products IH]; intros n.
  - split; [constructor|]. unfold flatMapG, gen_bind, gen_ret. simpl. lia.
  - rewrite flatMapG_cons. cbn [fst snd].
    unfold catalogue_paths. rewrite bind_cons.
    pose proof (generateCombinations_paths rt p n) as Hp.
    unfold generateCombinations in *. rewrite reduce_exact in *. cbn [fst snd] in *.
    destruct (IH (n + uuid_calls 1 (value_counts (p_options p)))) as [IHl IHn].
    split.
    + apply Forall2_app; [|exact IHl].
      apply Forall2_fmap_r. eapply Forall2_impl; [exact Hp|]. by intros variant path.
    + rewrite IHn, fmap_cons. cbn [sum_list sum_list_with]. unfold id. lia.
Qed.

Lemma length_catalogue_paths (products : list Product) :
  length (catalogue_paths products)
  = sum_list ((fun p => variant_count (value_counts (p_options p))) <$> products).
Proof.
  unfold catalogue_paths. induction products as [|p products IH]; [done|].
  rewrite bind_cons, length_app, length_fmap, length_lex_paths, IH, fmap_cons.
  done.
Qed.

(** X7. [main] expands the products in the order of the catalogue: the list
    it serialises holds, position by position, the variants of the first
    product along its paths, then those of the second, and so on; its
    length is the sum of the variant counts of the products. *)
Theorem productVariants_catalogue (rt : Runtime) (products : list Product) :
  Forall2 (fun variant pp => built_along rt pp.1 variant pp.2)
    (productVariants rt products) (catalogue_paths products)
  ∧ length (productVariants rt products)
    = sum_list ((fun p => variant_count (value_counts (p_options p))) <$> products).
Proof.
  unfold productVariants.
  destruct (flatMap_products rt products 0) as [Hall _].
  split; [exact Hall|].
  rewrite (Forall2_length _ _ _ Hall). apply length_catalogue_paths.
Qed.

(** ** The configuration check *)

Lemma js_not_falsy (flag : option argval) (fallback : string) :
  js_not (default (ArgString fallback) flag) = true
  ↔ falsy_flag flag ∨ (flag = None ∧ fallback = "").
Proof.
  unfold falsy_flag. destruct flag as [[s|zero text|b|text]|]; simpl.
  - rewrite bool_decide_eq_true. split.
    + intros ->. auto.
    + intros [[H|[[text H]|H]]|[H _]]; congruence.
  - split.
    + intros ->. eauto.
    + intros [[H|[[text' H]|H]]|[H _]]; congruence.
  - rewrite negb_true_iff. split.
    + intros ->. auto.
    + intros [[H|[[text H]|H]]|[H _]]; congruence.
  - split; [done|]. intros [[H|[[text' H]|H]]|[H _]]; congruence.
  - rewrite bool_decide_eq_true. split.
    + intros ->. auto.
    + intros [[H|[[text H]|H]]|[_ H]]; congruence.
Qed.

Lemma main_try_config_message (rt : Runtime) (w : World) :
  ConsoleError config_message ∉ (main_catch (main_try rt w)).1.
Proof.
  unfold main_catch. intros Hin.
  assert (ConsoleError config_message ∉ (main_try rt w).1) as Htry.
  { intros [(path & content & H)|(count & H)]%main_try_events; discriminate H. }
  destruct (main_try rt w).2; [done|]. cbn [fst] in Hin.
  apply elem_of_app in Hin as [Hin|Hin]; [done|].
  apply list_elem_of_singleton in Hin. discriminate Hin.
Qed.

(** X8. The message about the configuration is logged exactly when [--in]
    or [--out] is given a falsy value: the empty string, the number 0
    or [false].  A flag that is absent takes its default and never
    raises it, and the value of [--name] is not checked. *)
Theorem main_config_message (rt : Runtime) (manual : string) (w : World) :
  argv_help w = false →
  ConsoleError config_message ∈ (main rt manual w).1
  ↔ falsy_flag (argv_in w) ∨ falsy_flag (argv_out w).
Proof.
  intros Hhelp. unfold main. rewrite Hhelp. cbn [fst].
  assert (js_not (INPUT_FILE_PATH w) || js_not (OUTPUT_DIR w) = true
          ↔ falsy_flag (argv_in w) ∨ falsy_flag (argv_out w)) as <-.
  { unfold INPUT_FILE_PATH, OUTPUT_DIR. rewrite orb_true_iff, !js_not_falsy.
    split.
    - intros [[H|[_ H]]|[H|[_ H]]]; auto; discriminate H.
    - intros [H|H]; auto. }
  rewrite elem_of_app. split.
  - intros [Hin|Hin]; [|by apply main_try_config_message in Hin].
    destruct (_ || _); [done|]. by apply elem_of_nil in Hin.
  - intros ->. left. apply list_elem_of_here.
Qed.

(** ** The comparison of prices *)

Section Coercion.

Variable p : Product.

Lemma update_price_runtime (rta rtb : Runtime) (ov : OptionValue)
    (variant : object) (current : option Z) :
  js_get (own variant) "price" = price_val current →
  update_price rta ov variant = update_price rtb ov variant.
Proof.
  intros H. unfold update_price. rewrite H.
  by destruct current, (ov_price ov).
Qed.

Lemma make_variant_runtime (rta rtb : Runtime) (o : ProductOption)
    (c : gmap string jsval) (v : Value) (id : string) (current : option Z) :
  toLowerCase (po_name o) ≠ "price" →
  js_get c "price" = price_val current →
  make_variant rta p o c v id = make_variant rtb p o c v id.
Proof.
  intros Hn Hc. unfold make_variant. destruct v as [label|ov]; [done|].
  do 2 f_equal. apply (update_price_runtime rta rtb ov _ current).
  unfold js_get. rewrite own_js_set_ne by done. cbn [literal own].
  by rewrite lookup_base_fields_price.
Qed.

Lemma variant_of_path_runtime (rta rtb : Runtime) (path : list choice) (id : string) :
  names_avoid "price" path = true →
  variant_of_path rta p path id = variant_of_path rtb p path id.
Proof.
  induction path as [|[o v] path IH] using rev_ind; [done|].
  intros [Hn Ho]%names_avoid_snoc.
  rewrite !variant_of_path_snoc, IH by done.
  apply (make_variant_runtime rta rtb o _ v id (max_price path)); [done|].
  by apply variant_of_path_price.
Qed.

End Coercion.

Lemma lex_paths_names_avoid (options : list ProductOption) (path : list choice)
    (j : string) :
  forallb (fun o => bool_decide (toLowerCase (po_name o) ≠ j)) options = true →
  path ∈ lex_paths options →
  names_avoid j path = true.
Proof.
  intros Hall Hp%lex_paths_choices. unfold names_avoid.
  induction Hp as [|[o' v] o path options [Ho _] _ IH]; [done|].
  simpl in *. subst o'. apply andb_true_iff in Hall as [Hj Hall].
  by rewrite Hj, IH.
Qed.

(** X9. When no option is named [price], the comparison of lines 74-76 only
    ever compares two numbers: the variants do not depend on how a
    string, an array or an object would compare with a number. *)
Theorem generateCombinations_compares_numbers (rta rtb : Runtime) (p : Product)
    (n : nat) :
  (∀ k, randomUUID rta k = randomUUID rtb k) →
  forallb (fun o => bool_decide (toLowerCase (po_name o) ≠ "price")) (p_options p)
  = true →
  generateCombinations rta p n = generateCombinations rtb p n.
Proof.
  intros Hid Hall. unfold generateCombinations. rewrite !reduce_exact. f_equal.
  apply imap_ext. intros i path Hp. simpl. rewrite Hid.
  apply variant_of_path_runtime.
  eapply lex_paths_names_avoid; [exact Hall|]. by eapply list_elem_of_lookup_2.
Qed.

Lemma generateCombinations_compares_numbers_witness :
  generateCombinations rt0 (with_options [color; finish; priced_material]) 0
  = generateCombinations rt1 (with_options [color; finish; priced_material]) 0.
Proof.
  exact (generateCombinations_compares_numbers rt0 rt1
           (with_options [color; finish; priced_material]) 0
           (fun k => eq_refl) eq_refl).
Defined.

Lemma variant_id_position_witness :
  ∃ variant,
    (generateCombinations rt0 mockProduct 0).1 !! 1 = Some variant
    ∧ variant !! "id" = Some (JStr "uuid-3").
Proof.
  eexists. split; [reflexivity|].
  exact (variant_id_position rt0 mockProduct 0 1 _ [color] finish
           eq_refl ltac:(apply (bool_decide_unpack _); exact I) eq_refl eq_refl).
Defined.

Lemma variant_ids_distinct_witness :
  ∃ a b,
    (generateCombinations rt0 mockProduct 0).1 !! 1 = Some a
    ∧ (generateCombinations rt0 mockProduct 0).1 !! 1 = Some b
    ∧ 1 = 1.
Proof.
  eexists _, _. split; [reflexivity|]. split; [reflexivity|].
  exact (variant_ids_distinct rt0 mockProduct 0 1 1 _ _ [color] finish
           rt0_never_repeats eq_refl
           ltac:(apply (bool_decide_unpack _); exact I) eq_refl
           eq_refl eq_refl eq_refl).
Defined.

Lemma variant_base_fields_witness :
  ∃ variant,
    (generateCombinations rt0 mockProduct 0).1 !! 3 = Some variant
    ∧ variant !! "parentProductId" = Some (JNum 1)
    ∧ variant !! "parentProductName" = Some (JStr "Test Product")
    ∧ Forall (fun k => is_Some (variant !! k)) base_keys.
Proof.
  eexists. split; [reflexivity|].
  exact (variant_base_fields rt0 mockProduct 0 3 _ eq_refl ltac:(discriminate)).
Defined.

Lemma variant_keys_witness :
  ∃ variant,
    (generateCombinations rt0 mockProduct 0).1 !! 0 = Some variant
    ∧ (is_Some (variant !! "finish")
       ↔ "finish" ∈ base_keys
         ∨ written_on [(color, VString "Red");
                       (finish, override "360 wrap print" (Some 50%Z)
                                  (Some "Full wrap") [])] "finish" = true).
Proof.
  eexists. split; [reflexivity|].
  exact (variant_keys rt0 mockProduct 0 0 _
           [(color, VString "Red");
            (finish, override "360 wrap print" (Some 50%Z) (Some "Full wrap") [])]
           "finish" eq_refl eq_refl eq_refl ltac:(discriminate) ltac:(discriminate)).
Defined.

Lemma main_config_message_witness :
  ConsoleError config_message ∈ (main rt0 "" zero_out).1
  ∧ (ConsoleError config_message ∈ (main rt0 "" empty_catalogue).1
     ↔ falsy_flag (argv_in empty_catalogue) ∨ falsy_flag (argv_out empty_catalogue)).
Proof.
  split.
  - apply (main_config_message rt0 "" zero_out eq_refl).
    right. right. left. by exists "0".
  - exact (main_config_message rt0 "" empty_catalogue eq_refl).
Defined.

(** ** Two runs *)

Section TwoRuns.

Variable p : Product.
Variables rta rtb : Runtime.
Hypothesis same_comparison : gt_coerced rta = gt_coerced rtb.

Lemma js_gt_same price current : js_gt rta price current = js_gt rtb price current.
Proof. unfold js_gt. by rewrite same_comparison. Qed.

Lemma make_variant_same o c v id :
  make_variant rta p o c v id = make_variant rtb p o c v id.
Proof.
  unfold make_variant. destruct v as [label|ov]; [done|].
  do 2 f_equal. unfold update_price. by rewrite js_gt_same.
Qed.

Lemma variant_of_path_same path id :
  variant_of_path rta p path id = variant_of_path rtb p path id.
Proof.
  induction path as [|[o v] path IH] using rev_ind; [done|].
  by rewrite !variant_of_path_snoc, IH, make_variant_same.
Qed.

End TwoRuns.

Lemma Forall2_imap_same {A B} (R : B -> B -> Prop) (f g : nat -> A -> B) (l : list A) :
  (∀ i x, R (f i x) (g i x)) → Forall2 R (imap f l) (imap g l).
Proof.
  revert f g. induction l as [|x l IH]; intros f g H; simpl; constructor.
  - apply H.
  - apply IH. intros i y. apply H.
Qed.

(** X10. Two runs on the same product give the same variants up to their
    identifiers: whatever the supply gives and wherever it stands, the
    lists have the same length and the variants at the same position
    differ at most in their [id]. *)
Theorem generateCombinations_up_to_id (rta rtb : Runtime) (p : Product) (n m : nat) :
  gt_coerced rta = gt_coerced rtb →
  Forall2 (agree_off "id")
    (generateCombinations rta p n).1 (generateCombinations rtb p m).1.
Proof.
  intros Hgt. unfold generateCombinations. rewrite !reduce_exact. cbn [fst].
  apply Forall2_imap_same. intros i path.
  rewrite (variant_of_path_same p rta rtb Hgt). apply variant_of_path_id.
Qed.

Lemma generateCombinations_up_to_id_witness :
  Forall2 (agree_off "id")
    (generateCombinations rt0 mockProduct 0).1 (generateCombinations rt2 mockProduct 7).1.
Proof. exact (generateCombinations_up_to_id rt0 rt2 mockProduct 0 7 eq_refl). Defined.

(** ** The repository's tests, replayed on the model *)

Example test_number_of_combinations :
  length (generateCombinations rt0 mockProduct 0).1 = 4.
Proof. vm_compute. reflexivity. Qed.

Example test_extended_options :
  length (generateCombinations rt0 (with_options [color; finish; material]) 0).1 = 12.
Proof. vm_compute. reflexivity. Qed.

Example test_custom_description_and_price :
  (fun variant => (js_get variant "color", js_get variant "finish",
                   js_get variant "description", js_get variant "price"))
    <$> (generateCombinations rt0 mockProduct 0).1
  = [(JStr "Red", JStr "360 wrap print", JStr "Full wrap", JNum 50);
     (JStr "Red", JStr "One-sided printing", JStr "One side", JNum 45);
     (JStr "Blue", JStr "360 wrap print", JStr "Full wrap", JNum 50);
     (JStr "Blue", JStr "One-sided printing", JStr "One side", JNum 45)].
Proof. vm_compute. reflexivity. Qed.

Example test_highest_price :
  (fun variant => js_get variant "price")
    <$> (generateCombinations rt0 (with_options [color; finish; priced_material]) 0).1
  = [JNum 70; JNum 65; JNum 70; JNum 65; JNum 70; JNum 65; JNum 70; JNum 65].
Proof. vm_compute. reflexivity. Qed.

Example test_custom_field :
  (fun variant => (js_get variant "description", variant !! "embossed"))
    <$> (generateCombinations rt0 (with_options [color; embossed_finish]) 0).1
  = [(JStr "Full wrap", Some (JBool true)); (JStr "One side", None);
     (JStr "Full wrap", Some (JBool true)); (JStr "One side", None)].
Proof. vm_compute. reflexivity. Qed.

Example test_identifiers :
  (fun variant => js_get variant "id") <$> (generateCombinations rt0 mockProduct 0).1
  = [JStr "uuid-2"; JStr "uuid-3"; JStr "uuid-4"; JStr "uuid-5"].
Proof. vm_compute. reflexivity. Qed.

Example test_successful_execution :
  main rt0 "" empty_catalogue
  = ([FileWritten "./results/generated-variants-with-base-data.json" "[]";
      ConsoleInfo "Script ran successfully, 0 variants generated at ./results/generated-variants-with-base-data.json"],
     Returned).
Proof. vm_compute. reflexivity. Qed.

Example test_failure :
  main rt0 "" missing_input
  = ([ConsoleError (failure_message "Error: ENOENT: no such file or directory")],
     Returned).
Proof. vm_compute. reflexivity. Qed.

(** After the message about the configuration the run goes on: with an
    empty output directory the file is written at the root. *)
Example run_with_output_directory_zero :
  main rt0 "" zero_out
  = ([ConsoleError config_message;
      FileWritten "0/generated-variants-with-base-data.json" "[]";
      ConsoleInfo "Script ran successfully, 0 variants generated at 0/generated-variants-with-base-data.json"],
     Returned).
Proof. vm_compute. reflexivity. Qed.

Example run_with_empty_output_directory :
  main rt0 "" empty_out
  = ([ConsoleError config_message;
      FileWritten "/generated-variants-with-base-data.json" "[]";
      ConsoleInfo "Script ran successfully, 0 variants generated at /generated-variants-with-base-data.json"],
     Returned).
Proof. vm_compute. reflexivity. Qed.

(** ** Keys that meet [Object.prototype] *)

(** The label of an option named [__proto__] goes to the inherited
    accessor, which ignores a string: the variant has no such field. *)
Example run_option_named_proto :
  (fun variant : gmap string jsval => (variant !! "__proto__", variant !! "id"))
    <$> (generateCombinations rt0 option_named_proto 0).1
  = [(None, Some (JStr "uuid-0"))].
Proof. vm_compute. reflexivity. Qed.

(** For the key [Constructor] the code reads [value['constructor']],
    which the value inherits. *)
Example run_constructor_key :
  (fun variant : gmap string jsval => variant !! "constructor")
    <$> (generateCombinations rt0 constructor_key 0).1
  = [Some (JInherited "constructor")].
Proof. vm_compute. reflexivity. Qed.

(** The first assignment of [null] to [__proto__] takes the prototype
    away, and the accessor with it; the second one creates the
    property. *)
Example run_proto_keys :
  (fun variant : gmap string jsval => variant !! "__proto__")
    <$> (generateCombinations rt0 proto_keys 0).1
  = [Some JNull].
Proof. vm_compute. reflexivity. Qed.
